(** * Codex web front ends: session registry, event broadcast and replay,
      and single-flight admission

    Two HTTP front ends of the Codex CLI are embedded here.

    - [Web] follows [runWebServer] and its helpers ([writeEvent], [emit],
      [createSession], [cleanupSessionIfIdle], [runAgentForSession]): every
      run gets a session, and observers follow it over a server-sent-event
      stream.
    - [SingleFlight] follows [runCodexWeb] of [codex-cli/src/web/server.ts]:
      at most one run is in flight and the caller gets the buffered result.

    JavaScript runs every handler and every callback to completion on one
    event loop, so each of them is one function on the state of the server.
    What the outside world decides (the UUID drawn by [randomUUID], the
    response object of a request, the clock, what the agent reports and how
    it ends) is an argument of the corresponding step. *)

From Stdlib Require Import ZArith String Ascii List Bool Lia DecimalString.
From stdpp Require Import base option list gmap strings.

Local Open Scope string_scope.
Local Open Scope list_scope.

(** ** JavaScript values and strings *)

Module JS.

(** A parsed JSON request body, and the values its fields hold. *)
#[warnings="-register-all"]
Inductive JsVal :=
| JsUndefined
| JsNull
| JsBool (b : bool)
| JsNumber (z : Z)
| JsString (s : string)
| JsArray (elems : list JsVal)
| JsObject (fields : list (string * JsVal)).

Fixpoint assoc (k : string) (fields : list (string * JsVal)) : JsVal :=
  match fields with
  | [] => JsUndefined
  | (k', v) :: rest => if String.eqb k k' then v else assoc k rest
  end.

(** [body?.prompt] and the destructuring of [body ?? {}]: reading a property
    that is not there, or reading one off [null] or [undefined] behind the
    guard, gives [undefined]. *)
Definition get (v : JsVal) (k : string) : JsVal :=
  match v with
  | JsObject fields => assoc k fields
  | _ => JsUndefined
  end.

(** [Boolean(v)]. *)
Definition truthy (v : JsVal) : bool :=
  match v with
  | JsUndefined | JsNull => false
  | JsBool b => b
  | JsNumber z => negb (z =? 0)%Z
  | JsString s => negb (String.eqb s "")
  | JsArray _ | JsObject _ => true
  end.

(** Strings are sequences of bytes, a JavaScript string in UTF-8. *)
Definition bytes (codes : list nat) : string :=
  foldr (λ n s, String (ascii_of_nat n) s) EmptyString codes.

(** The white space and the line terminators of ECMAScript, which
    [String.prototype.trim] removes: U+0009 to U+000D, U+0020, U+00A0,
    U+1680, U+2000 to U+200A, U+2028, U+2029, U+202F, U+205F, U+3000 and
    U+FEFF. *)
Definition white_space : list string :=
  bytes <$>
    [[9]; [10]; [11]; [12]; [13]; [32]; [194; 160]; [225; 154; 128];
     [226; 128; 128]; [226; 128; 129]; [226; 128; 130]; [226; 128; 131];
     [226; 128; 132]; [226; 128; 133]; [226; 128; 134]; [226; 128; 135];
     [226; 128; 136]; [226; 128; 137]; [226; 128; 138];
     [226; 128; 168]; [226; 128; 169]; [226; 128; 175]; [226; 129; 159];
     [227; 128; 128]; [239; 187; 191]].

Fixpoint strip_prefix (p s : string) : option string :=
  match p with
  | EmptyString => Some s
  | String a p' =>
      match s with
      | EmptyString => None
      | String b s' => if Ascii.eqb a b then strip_prefix p' s' else None
      end
  end.

(** The string after its first character, when that is white space. *)
Definition skip_ws (s : string) : option string :=
  foldr (λ p found, match strip_prefix p s with
                    | Some rest => Some rest
                    | None => found
                    end) None white_space.

Fixpoint trimStart_upto (n : nat) (s : string) : string :=
  match n with
  | O => s
  | S n' =>
      match skip_ws s with
      | Some rest => trimStart_upto n' rest
      | None => s
      end
  end.

Definition trimStart (s : string) : string :=
  trimStart_upto (String.length s) s.

(** A suffix is dropped when it is white space through to the end. *)
Fixpoint trimEnd (s : string) : string :=
  match s with
  | EmptyString => EmptyString
  | String c rest =>
      if String.eqb (trimStart s) "" then EmptyString
      else String c (trimEnd rest)
  end.

Definition trim (s : string) : string := trimEnd (trimStart s).

(** The prompt as both front ends read it: the trimmed field when it is a
    string, the empty string otherwise. *)
Definition prompt_text (v : JsVal) : string :=
  match v with
  | JsString s => trim s
  | _ => ""
  end.

(** The string elements of [images] when it is an array, none otherwise. *)
Definition string_elems (v : JsVal) : list string :=
  match v with
  | JsArray elems =>
      omap (fun e => match e with JsString s => Some s | _ => None end) elems
  | _ => []
  end.

Definition nl : string := String (ascii_of_nat 10) EmptyString.
Definition dquote : string := String (ascii_of_nat 34) EmptyString.

Definition hex_digit (n : nat) : string :=
  String.substring n 1 "0123456789abcdef".

(** One character of a string under [JSON.stringify]. *)
Definition json_escape (c : ascii) : string :=
  let n := nat_of_ascii c in
  match n with
  | 8 => "\b"
  | 9 => "\t"
  | 10 => "\n"
  | 12 => "\f"
  | 13 => "\r"
  | 34 => "\" +:+ dquote
  | 92 => "\\"
  | _ =>
      if (n <? 32)%nat
      then "\u00" +:+ hex_digit (n / 16) +:+ hex_digit (n mod 16)
      else String c EmptyString
  end.

Fixpoint json_chars (s : string) : string :=
  match s with
  | EmptyString => EmptyString
  | String c rest => json_escape c +:+ json_chars rest
  end.

(** [JSON.stringify] of a string. *)
Definition json_string (s : string) : string :=
  dquote +:+ json_chars s +:+ dquote.

Definition json_bool (b : bool) : string := if b then "true" else "false".

(** What a [catch] clause can receive: an [Error] with its message, or any
    other value, given with its [String(...)] conversion. *)
Inductive Thrown :=
| ThrownError (message : string)
| ThrownValue (as_string : string).

End JS.

(** ** The multi-session front end: [runWebServer] *)

Module Web.
Import JS.

(** A [Response] object of express, by identity: one per request. *)
Abbreviation Conn := nat (only parsing).

(** A [Session] object, by reference. The registry, the agent callbacks and
    the close handlers of the streams all hold the same object. *)
Abbreviation Ref := nat (only parsing).

(** The three payloads the server ever puts in an event:
    [{ text }], [{ loading }] and [{ message }]. *)
Inductive Payload :=
| DataText (text : string)
| DataLoading (loading : bool)
| DataMessage (message : string).

Definition json_field (k v : string) : string :=
  "{" +:+ dquote +:+ k +:+ dquote +:+ ":" +:+ v +:+ "}".

Definition JSON_stringify (d : Payload) : string :=
  match d with
  | DataText text => json_field "text" (json_string text)
  | DataLoading loading => json_field "loading" (json_bool loading)
  | DataMessage message => json_field "message" (json_string message)
  end.

Record SessionEvent := {
  type : string;
  data : option Payload            (* [data?: unknown] *)
}.

Record Session := {
  id : string;
  events : list SessionEvent;
  listeners : list Conn;           (* [Set<Response>], in insertion order *)
  completed : bool
}.

Inductive Reply :=
| BadRequest (error : string)      (* [res.status(400).json({ error })] *)
| Started (sessionId : string)     (* [res.json({ sessionId })] *)
| NotFound                         (* [res.sendStatus(404)] *)
| EventStream.                     (* status 200, [text/event-stream] *)

Definition status (r : Reply) : nat :=
  match r with
  | BadRequest _ => 400
  | Started _ => 200
  | NotFound => 404
  | EventStream => 200
  end.

(** The state of the server process.
    - [heap]: the session objects ever allocated; a reference is an index.
    - [sessions]: the module-level [Map<string, Session>].
    - [wire]: for every response turned into an event stream, the chunks
      passed to [res.write], oldest first.
    - [agents]: the agent runs in flight, with the prompt they were given.
    - [streams]: the streams whose keep-alive timer and close handler are
      armed, with the session the handler closes over. *)
Record Server := {
  heap : list Session;
  sessions : gmap string Ref;
  wire : gmap Conn (list string);
  agents : gmap Ref string;
  streams : gmap Conn Ref
}.

Definition init : Server :=
  {| heap := []; sessions := ∅; wire := ∅; agents := ∅; streams := ∅ |}.

Definition with_heap (f : list Session → list Session) (w : Server) : Server :=
  {| heap := f (heap w); sessions := sessions w; wire := wire w;
     agents := agents w; streams := streams w |}.

Definition with_sessions (f : gmap string Ref → gmap string Ref)
    (w : Server) : Server :=
  {| heap := heap w; sessions := f (sessions w); wire := wire w;
     agents := agents w; streams := streams w |}.

Definition with_wire (f : gmap Conn (list string) → gmap Conn (list string))
    (w : Server) : Server :=
  {| heap := heap w; sessions := sessions w; wire := f (wire w);
     agents := agents w; streams := streams w |}.

Definition with_agents (f : gmap Ref string → gmap Ref string)
    (w : Server) : Server :=
  {| heap := heap w; sessions := sessions w; wire := wire w;
     agents := f (agents w); streams := streams w |}.

Definition with_streams (f : gmap Conn Ref → gmap Conn Ref)
    (w : Server) : Server :=
  {| heap := heap w; sessions := sessions w; wire := wire w;
     agents := agents w; streams := f (streams w) |}.

(** What has been written to a response so far. *)
Definition sent (w : Server) (res : Conn) : list string :=
  default [] (wire w !! res).

(** [res.write(chunk)]. *)
Definition write (res : Conn) (chunk : string) (w : Server) : Server :=
  with_wire (λ m, <[res := sent w res ++ [chunk]]> m) w.

(** The chunks of one event: the event line, the data line when the event
    has data, the blank line. *)
Definition frame (event : SessionEvent) : list string :=
  ["event: " +:+ type event +:+ nl] ++
  match data event with
  | Some d => ["data: " +:+ JSON_stringify d +:+ nl]
  | None => []
  end ++
  [nl].

Definition writeEvent (res : Conn) (event : SessionEvent) (w : Server) : Server :=
  let w := write res ("event: " +:+ type event +:+ nl) w in
  let w :=
    match data event with
    | Some d => write res ("data: " +:+ JSON_stringify d +:+ nl) w
    | None => w
    end in
  write res nl w.

Definition push (event : SessionEvent) (s : Session) : Session :=
  {| id := id s; events := events s ++ [event];
     listeners := listeners s; completed := completed s |}.

Definition emit (session : Ref) (event : SessionEvent) (w : Server) : Server :=
  match heap w !! session with
  | None => w
  | Some s =>
      let w := with_heap (alter (push event) session) w in
      foldl (λ w listener, writeEvent listener event w) w (listeners s)
  end.

(** [createSession], with the UUID that [randomUUID] returns. *)
Definition createSession (uuid : string) (w : Server) : Ref * Server :=
  let session :=
    {| id := uuid; events := []; listeners := []; completed := false |} in
  let r := length (heap w) in
  (r, with_sessions (insert uuid r) (with_heap (λ h, h ++ [session]) w)).

Definition cleanupSessionIfIdle (session : Ref) (w : Server) : Server :=
  match heap w !! session with
  | None => w
  | Some s =>
      if completed s && (length (listeners s) =? 0)%nat
      then with_sessions (delete (id s)) w
      else w
  end.

(** *** [runAgentForSession], callback by callback *)

(** Up to its first [await]: the agent exists and is running. *)
Definition runAgentForSession (session : Ref) (prompt : string)
    (w : Server) : Server :=
  with_agents (insert session prompt) w.

(** [onItem]; [text] is [formatResponseItemForDisplay(item)]. *)
Definition onItem (session : Ref) (text : string) (w : Server) : Server :=
  emit session {| type := "item"; data := Some (DataText text) |} w.

Definition onLoading (session : Ref) (loading : bool) (w : Server) : Server :=
  emit session {| type := "status"; data := Some (DataLoading loading) |} w.

Definition set_completed (s : Session) : Session :=
  {| id := id s; events := events s; listeners := listeners s;
     completed := true |}.

(** The rest of [try], [catch] and [finally], once the awaited run has
    settled: [None] when it resolved, [Some error] when it threw. *)
Definition settle (session : Ref) (outcome : option Thrown)
    (w : Server) : Server :=
  let w :=
    match outcome with
    | None => emit session {| type := "complete"; data := None |} w
    | Some error =>
        let message :=
          match error with
          | ThrownError message => message
          | ThrownValue _ => "Unexpected error"
          end in
        emit session {| type := "error"; data := Some (DataMessage message) |} w
    end in
  let w := with_agents (delete session) w in          (* [agent.terminate()] *)
  let w := with_heap (alter set_completed session) w in
  cleanupSessionIfIdle session w.

(** *** The request handlers *)

(** [POST /api/run]. *)
Definition post_run (body : JsVal) (uuid : string) (w : Server)
  : Server * Reply :=
  let prompt := prompt_text (get body "prompt") in
  if String.eqb prompt ""
  then (w, BadRequest "Prompt is required")
  else
    let '(session, w) := createSession uuid w in
    (runAgentForSession session prompt w, Started uuid).

Definition add_listener (res : Conn) (s : Session) : Session :=
  {| id := id s; events := events s;
     listeners := if decide (res ∈ listeners s) then listeners s
                  else listeners s ++ [res];
     completed := completed s |}.

Definition delete_listener (res : Conn) (s : Session) : Session :=
  {| id := id s; events := events s;
     listeners := filter (λ c, c ≠ res) (listeners s);
     completed := completed s |}.

(** [GET /api/run/:id/stream]. *)
Definition get_stream (sid : string) (res : Conn) (w : Server)
  : Server * Reply :=
  match sessions w !! sid with
  | None => (w, NotFound)
  | Some session =>
      let w := with_wire (insert res []) w in           (* headers flushed *)
      let w := with_heap (alter (add_listener res) session) w in
      let replay := from_option events [] (heap w !! session) in
      let w := foldl (λ w event, writeEvent res event w) w replay in
      (with_streams (insert res session) w, EventStream)
  end.

Definition keep_alive_chunk : string := ": keep-alive" +:+ nl +:+ nl.

(** One tick of the [setInterval] timer of a stream. *)
Definition keep_alive (res : Conn) (w : Server) : Server :=
  write res keep_alive_chunk w.

(** What the close handler does to the session it closes over. *)
Definition detach (session : Ref) (res : Conn) (w : Server) : Server :=
  let w := with_heap (alter (delete_listener res) session) w in
  cleanupSessionIfIdle session w.

(** The close handler of the stream [res]: it fires once. *)
Definition on_close (res : Conn) (w : Server) : Server :=
  match streams w !! res with
  | None => w
  | Some session => detach session res (with_streams (delete res) w)
  end.

(** *** The event loop *)

Inductive Action :=
| PostRun (body : JsVal) (uuid : string)
| GetStream (sid : string) (res : Conn)
| KeepAlive (res : Conn)
| Close (res : Conn)
| OnItem (session : Ref) (text : string)
| OnLoading (session : Ref) (loading : bool)
| Settle (session : Ref) (outcome : option Thrown).

Definition step (w : Server) (a : Action) : Server :=
  match a with
  | PostRun body uuid => fst (post_run body uuid w)
  | GetStream sid res => fst (get_stream sid res w)
  | KeepAlive res => keep_alive res w
  | Close res => on_close res w
  | OnItem session text => onItem session text w
  | OnLoading session loading => onLoading session loading w
  | Settle session outcome => settle session outcome w
  end.

(** What the environment can do in a state: [randomUUID] never repeats an
    identifier, a request comes with a response object of its own, timers
    and close handlers fire only while armed (a close handler once), and
    an agent calls back and settles only while it is in flight. *)
Definition enabled (w : Server) (a : Action) : bool :=
  match a with
  | PostRun _ uuid => bool_decide (uuid ∉ id <$> heap w)
  | GetStream _ res => bool_decide (wire w !! res = None)
  | KeepAlive res | Close res => bool_decide (is_Some (streams w !! res))
  | OnItem session _ | OnLoading session _ | Settle session _ =>
      bool_decide (is_Some (agents w !! session))
  end.

Fixpoint run (w : Server) (acts : list Action) : option Server :=
  match acts with
  | [] => Some w
  | a :: rest => if enabled w a then run (step w a) rest else None
  end.

Definition reachable (w : Server) : Prop := ∃ acts, run init acts = Some w.

(** *** Vocabulary of the properties *)

(** What an observer has received: the chunks written to its response,
    the keep-alive comments left out. *)
Definition received (chunks : list string) : list string :=
  filter (λ chunk, chunk ≠ keep_alive_chunk) chunks.

(** The event that a step hands to [emit], with the session it is for. *)
Definition emitted (a : Action) : option (Ref * SessionEvent) :=
  match a with
  | OnItem session text =>
      Some (session, {| type := "item"; data := Some (DataText text) |})
  | OnLoading session loading =>
      Some (session, {| type := "status"; data := Some (DataLoading loading) |})
  | Settle session None =>
      Some (session, {| type := "complete"; data := None |})
  | Settle session (Some (ThrownError message)) =>
      Some (session, {| type := "error"; data := Some (DataMessage message) |})
  | Settle session (Some (ThrownValue _)) =>
      Some (session,
            {| type := "error"; data := Some (DataMessage "Unexpected error") |})
  | _ => None
  end.

(** The events emitted on one session along a sequence of steps, in order. *)
Definition emitted_on (session : Ref) (acts : list Action) : list SessionEvent :=
  omap (λ a, match emitted a with
             | Some (r, event) => if decide (r = session) then Some event else None
             | None => None
             end) acts.

(** The destroy condition: complete and unobserved. *)
Definition idle (s : Session) : Prop := completed s = true ∧ listeners s = [].

#[global] Instance idle_dec s : Decision (idle s).
Proof. unfold idle. apply _. Defined.

Definition of_type (t : string) (event : SessionEvent) : Prop := type event = t.

#[global] Instance of_type_dec t event : Decision (of_type t event).
Proof. unfold of_type. apply _. Defined.

(** What holds of every state the server can be in. *)
Record Inv (w : Server) : Prop := {
  inv_ids : ∀ r1 r2 s1 s2,
    heap w !! r1 = Some s1 → heap w !! r2 = Some s2 → id s1 = id s2 → r1 = r2;
  inv_registry : ∀ k r,
    sessions w !! k = Some r ↔ ∃ s, heap w !! r = Some s ∧ id s = k ∧ ¬ idle s;
  inv_agents : ∀ r,
    is_Some (agents w !! r) ↔ ∃ s, heap w !! r = Some s ∧ completed s = false;
  inv_streams : ∀ res r,
    streams w !! res = Some r ↔ ∃ s, heap w !! r = Some s ∧ res ∈ listeners s;
  inv_open : ∀ res, is_Some (streams w !! res) → is_Some (wire w !! res);
  inv_nodup : ∀ r s, heap w !! r = Some s → NoDup (listeners s);
  inv_sent : ∀ r s res,
    heap w !! r = Some s → res ∈ listeners s →
    received (sent w res) = flat_map frame (events s);
  inv_log : ∀ r s,
    heap w !! r = Some s → completed s = false →
    Forall (λ event, of_type "item" event ∨ of_type "status" event) (events s)
}.

(** A request body with a prompt, and a server on which one run has
    started and reported one item: the running example below. *)
Definition demo_body : JsVal := JsObject [("prompt", JsString " ls ")].

Definition demo_running : Server :=
  step (step init (PostRun demo_body "a")) (OnItem 0 "x").

(** Two states that differ at most in what was written to the responses. *)
Definition same_but_wire (w w' : Server) : Prop :=
  heap w' = heap w ∧ sessions w' = sessions w ∧
  agents w' = agents w ∧ streams w' = streams w.

(** How a step changes a session object: the identifier stays, the log
    grows by what the step emits on the session, a completed session stays
    completed with the log it has, a listener stays unless the step is the
    close of its stream, and the session becomes idle only when its run
    settles or one of its streams closes. *)
Definition evolves (r : Ref) (a : Action) (s s' : Session) : Prop :=
  id s' = id s ∧
  events s' = events s ++ emitted_on r [a] ∧
  (completed s = true → completed s' = true ∧ events s' = events s) ∧
  (∀ c, c ∈ listeners s → a ≠ Close c → c ∈ listeners s') ∧
  (¬ idle s → idle s' →
   (∃ o, a = Settle r o) ∨ (∃ c, a = Close c ∧ c ∈ listeners s)).

End Web.

(** ** The single-flight front end: [runCodexWeb] *)

Module SingleFlight.
Import JS.

(** One invocation of the [POST /api/run] handler, by identity: its local
    variables are what the callbacks of its agent close over. *)
Abbreviation Req := nat (only parsing).

Record Reply := {
  status : nat;
  body : list (string * JsVal)     (* the object given to [res.json] *)
}.

(** The variables of one admitted invocation. A [ResponseItem] is a JSON
    value the server passes on as it came. *)
Record Locals := {
  results : list JsVal;
  loadingStates : list JsVal;
  lastResponseId : JsVal;          (* [string | undefined] *)
  startedAt : Z;
  fullStdout : JsVal
}.

(** - [activeRun]: the variable of that name; [Some req] is the promise of
      the run that invocation [req] started, [None] is [null].
    - [pending]: the invocations awaiting their run.
    - [invocations]: the agent runs created so far, with the prompt and the
      image paths each was given.
    - [sandboxStatus]: computed once, before the server listens.
    - [unhandled]: the reasons of the promises that rejected with no
      handler attached. Node ends the process at the first one (its
      default, [--unhandled-rejections=throw]). *)
Record Server := {
  activeRun : option Req;
  pending : gmap Req Locals;
  invocations : list (Req * string * list string);
  sandboxStatus : JsVal;
  unhandled : list Thrown
}.

Definition init (sandbox : JsVal) : Server :=
  {| activeRun := None; pending := ∅; invocations := [];
     sandboxStatus := sandbox; unhandled := [] |}.

Definition with_pending (f : gmap Req Locals → gmap Req Locals)
    (w : Server) : Server :=
  {| activeRun := activeRun w; pending := f (pending w);
     invocations := invocations w; sandboxStatus := sandboxStatus w;
     unhandled := unhandled w |}.

Definition conflict : Reply :=
  {| status := 409;
     body := [("error", JsString "Another run is already in progress.")] |}.

Definition bad_request : Reply :=
  {| status := 400; body := [("error", JsString "Prompt is required.")] |}.

(** [POST /api/run] up to [await runPromise]: the reply when there is one
    at once, nothing when the invocation now waits for its run. *)
Definition post_run (req : Req) (body : JsVal) (now : Z) (w : Server)
  : Server * option Reply :=
  match activeRun w with
  | Some _ => (w, Some conflict)
  | None =>
      let promptText := prompt_text (get body "prompt") in
      if String.eqb promptText ""
      then (w, Some bad_request)
      else
        let imagePaths := string_elems (get body "images") in
        let locals :=
          {| results := []; loadingStates := []; lastResponseId := JsUndefined;
             startedAt := now; fullStdout := get body "fullStdout" |} in
        ({| activeRun := Some req;
            pending := <[req := locals]> (pending w);
            invocations := invocations w ++ [(req, promptText, imagePaths)];
            sandboxStatus := sandboxStatus w;
            unhandled := unhandled w |}, None)
  end.

Definition onItem (req : Req) (item : JsVal) (w : Server) : Server :=
  with_pending (alter (λ l,
    {| results := results l ++ [item]; loadingStates := loadingStates l;
       lastResponseId := lastResponseId l; startedAt := startedAt l;
       fullStdout := fullStdout l |}) req) w.

Definition loading_state (payload : bool) : JsVal :=
  JsObject [("type", JsString "loading"); ("data", JsBool payload)].

Definition onLoading (req : Req) (payload : bool) (w : Server) : Server :=
  with_pending (alter (λ l,
    {| results := results l;
       loadingStates := loadingStates l ++ [loading_state payload];
       lastResponseId := lastResponseId l; startedAt := startedAt l;
       fullStdout := fullStdout l |}) req) w.

Definition onLastResponseId (req : Req) (rid : string) (w : Server) : Server :=
  with_pending (alter (λ l,
    {| results := results l; loadingStates := loadingStates l;
       lastResponseId := JsString rid; startedAt := startedAt l;
       fullStdout := fullStdout l |}) req) w.

(** The reply of an invocation whose run has settled: the [try] branch
    when it resolved, the [catch] branch when it threw. *)
Definition reply_of (w : Server) (l : Locals) (outcome : option Thrown)
    (now : Z) : Reply :=
  match outcome with
  | None =>
      {| status := 200;
         body := [("items", JsArray (results l));
                  ("loading", JsArray (loadingStates l));
                  ("lastResponseId", lastResponseId l);
                  ("durationMs", JsNumber (now - startedAt l));
                  ("sandbox", sandboxStatus w);
                  ("fullStdout", JsBool (truthy (fullStdout l)))] |}
  | Some error =>
      let message :=
        match error with
        | ThrownError message => message
        | ThrownValue as_string => as_string
        end in
      {| status := 500;
         body := [("error", JsString message);
                  ("items", JsArray (results l));
                  ("durationMs", JsNumber (now - startedAt l));
                  ("sandbox", sandboxStatus w)] |}
  end.

(** The run of invocation [req] settles: the [finally] callback clears
    [activeRun], then the invocation resumes and replies. [activeRun] held
    the promise that [runPromise.finally(...)] returned; the invocation
    awaits [runPromise] itself. So when the run threw, that second promise
    rejects with the same reason and nothing handles it. *)
Definition settle (req : Req) (outcome : option Thrown) (now : Z)
    (w : Server) : Server * option Reply :=
  match pending w !! req with
  | None => (w, None)
  | Some l =>
      ({| activeRun := None; pending := delete req (pending w);
          invocations := invocations w; sandboxStatus := sandboxStatus w;
          unhandled :=
            match outcome with
            | None => unhandled w
            | Some error => unhandled w ++ [error]
            end |},
       Some (reply_of w l outcome now))
  end.

Inductive Action :=
| Post (req : Req) (body : JsVal) (now : Z)
| OnItem (req : Req) (item : JsVal)
| OnLoading (req : Req) (payload : bool)
| OnLastResponseId (req : Req) (rid : string)
| Settle (req : Req) (outcome : option Thrown) (now : Z).

Definition step (w : Server) (a : Action) : Server * option Reply :=
  match a with
  | Post req body now => post_run req body now w
  | OnItem req item => (onItem req item w, None)
  | OnLoading req payload => (onLoading req payload w, None)
  | OnLastResponseId req rid => (onLastResponseId req rid w, None)
  | Settle req outcome now => settle req outcome now w
  end.

(** A request is a new invocation; an agent calls back and settles only
    while its invocation waits for it. *)
Definition ready (w : Server) (a : Action) : bool :=
  match a with
  | Post req _ _ => bool_decide (req ∉ (λ i, i.1.1) <$> invocations w)
  | OnItem req _ | OnLoading req _ | OnLastResponseId req _ | Settle req _ _ =>
      bool_decide (is_Some (pending w !! req))
  end.

(** What can happen in a state: what is ready, as long as the process
    lives. Once a rejection went unhandled the process has ended, and it
    serves no request and runs no callback. *)
Definition enabled (w : Server) (a : Action) : bool :=
  match unhandled w with
  | [] => ready w a
  | _ :: _ => false
  end.

Fixpoint run (w : Server) (acts : list Action) : option Server :=
  match acts with
  | [] => Some w
  | a :: rest => if enabled w a then run (step w a).1 rest else None
  end.

(** The items and the loading states that the agent of one invocation
    reports along a sequence of steps, in callback order. *)
Definition items_of (req : Req) (acts : list Action) : list JsVal :=
  omap (λ a, match a with
             | OnItem r item => if decide (r = req) then Some item else None
             | _ => None
             end) acts.

Definition loading_of (req : Req) (acts : list Action) : list JsVal :=
  omap (λ a, match a with
             | OnLoading r payload =>
                 if decide (r = req) then Some (loading_state payload) else None
             | _ => None
             end) acts.

(** The keys of an object literal, in order. *)
Definition keys (o : list (string * JsVal)) : list string := fst <$> o.

Definition reachable (sandbox : JsVal) (w : Server) : Prop :=
  ∃ acts, run (init sandbox) acts = Some w.

(** The invocations whose agent was created, by identity. *)
Definition invoked (w : Server) : list Req := (λ i, i.1.1) <$> invocations w.

(** A run is outstanding exactly for the invocation that [activeRun]
    stands for. *)
Definition tracks_outstanding (w : Server) : Prop :=
  ∀ req, is_Some (pending w !! req) ↔ activeRun w = Some req.

(** A request body with a prompt, and a server with one run outstanding
    that has reported one item and one loading state. *)
Definition demo_request : JsVal := JsObject [("prompt", JsString "build project")].

Definition demo_busy : Server :=
  (step (step (step (init JsNull) (Post 0 demo_request 100)).1
          (OnItem 0 (JsString "x"))).1 (OnLoading 0 true)).1.

End SingleFlight.

(** ** Vocabulary for the life of a session *)

Module Lifecycle.
Import JS Web.

(** An event of a run that is still going: an item or a status. *)
Definition ongoing (event : SessionEvent) : Prop :=
  of_type "item" event ∨ of_type "status" event.

(** The event that ends a run. *)
Definition terminal (event : SessionEvent) : Prop :=
  of_type "complete" event ∨ of_type "error" event.

(** The log of a session agrees with its flag: while the session is not
    completed the log holds ongoing events only; once it is, the log is
    such a sequence followed by one terminal event. *)
Definition ends_well (s : Session) : Prop :=
  if completed s
  then ∃ body last,
         events s = body ++ [last] ∧ Forall ongoing body ∧ terminal last
  else Forall ongoing (events s).

(** The state after a sequence of calls of the handlers and callbacks,
    taken as they come: nothing is asked of the order in which the
    environment makes them, so an agent may also call back after its run
    has settled. *)
Definition after (w : Server) (acts : list Action) : Server :=
  foldl step w acts.

End Lifecycle.

(** ** Vocabulary for the requests of the single-flight front end *)

Module Requests.
Import JS SingleFlight.

(** The response ids that the agent of one invocation reports along a
    sequence of steps, in callback order. *)
Definition ids_of (req : Req) (acts : list Action) : list string :=
  omap (λ a, match a with
             | OnLastResponseId r rid =>
                 if decide (r = req) then Some rid else None
             | _ => None
             end) acts.

(** The start requests made under one invocation identity, each with its
    body and the clock when it arrived, in order. *)
Definition posts_of (req : Req) (acts : list Action) : list (JsVal * Z) :=
  omap (λ a, match a with
             | Post r body now =>
                 if decide (r = req) then Some (body, now) else None
             | _ => None
             end) acts.

End Requests.

(** ** The page of the single-flight front end: [renderHtml] and its script *)

Module Page.
Import JS.

(** [s.replace(/c/g, by)] where the pattern is one literal character and
    the replacement holds no dollar sign: every occurrence of the
    character, left to right, becomes the replacement. *)
Fixpoint replace_all (c : ascii) (by_ : string) (s : string) : string :=
  match s with
  | EmptyString => EmptyString
  | String a rest =>
      (if Ascii.eqb a c then by_ else String a EmptyString)
      +:+ replace_all c by_ rest
  end.

Definition amp : ascii := ascii_of_nat 38.
Definition lt : ascii := ascii_of_nat 60.
Definition gt : ascii := ascii_of_nat 62.
Definition quot : ascii := ascii_of_nat 34.
Definition apos : ascii := ascii_of_nat 39.

(** [escapeHtml] of the page script: five replacements, one after the
    other, the ampersand first. *)
Definition escapeHtml (value : string) : string :=
  replace_all apos "&#39;"
    (replace_all quot "&quot;"
       (replace_all gt "&gt;"
          (replace_all lt "&lt;"
             (replace_all amp "&amp;" value)))).

(** What one character becomes when a text is escaped in one pass. *)
Definition entity (c : ascii) : string :=
  if Ascii.eqb c amp then "&amp;"
  else if Ascii.eqb c lt then "&lt;"
  else if Ascii.eqb c gt then "&gt;"
  else if Ascii.eqb c quot then "&quot;"
  else if Ascii.eqb c apos then "&#39;"
  else String c EmptyString.

Fixpoint escape_chars (s : string) : string :=
  match s with
  | EmptyString => EmptyString
  | String c rest => entity c +:+ escape_chars rest
  end.

(** Reading the five entities back. *)
Fixpoint unescape (s : string) : string :=
  match s with
  | EmptyString => EmptyString
  | String c rest =>
      if Ascii.eqb c amp then
        match rest with
        | String "a" (String "m" (String "p" (String ";" rest'))) =>
            String amp (unescape rest')
        | String "l" (String "t" (String ";" rest')) =>
            String lt (unescape rest')
        | String "g" (String "t" (String ";" rest')) =>
            String gt (unescape rest')
        | String "q" (String "u" (String "o" (String "t" (String ";" rest')))) =>
            String quot (unescape rest')
        | String "#" (String "3" (String "9" (String ";" rest'))) =>
            String apos (unescape rest')
        | _ => String c (unescape rest)
        end
      else String c (unescape rest)
  end.

(** The result of [determineSandboxStatus]. *)
Inductive SandboxStatus := Available | Unavailable | NotApplicable.

Definition status_name (s : SandboxStatus) : string :=
  match s with
  | Available => "available"
  | Unavailable => "unavailable"
  | NotApplicable => "not-applicable"
  end.

(** What [checkLandlockSupport] reports. *)
Inductive LandlockSupport :=
| Supported
| Unsupported (error_message : string).

Definition determineSandboxStatus (platform : string)
    (support : LandlockSupport) : SandboxStatus * option string :=
  if negb (String.eqb platform "linux") then (NotApplicable, None)
  else
    match support with
    | Supported => (Available, None)
    | Unsupported error_message => (Unavailable, Some error_message)
    end.

Record ServerContext := {
  cwd : string;
  model : string;
  provider : string;
  disableResponseStorage : bool;
  version : string;
  sandboxStatus : SandboxStatus;
  sandboxMessage : option string   (* [sandboxMessage?: string] *)
}.

(** The fields of the configuration that the context is built from. *)
Record AppConfig := {
  config_model : string;
  config_provider : option string;
  config_disableResponseStorage : JsVal
}.

(** The context as [runCodexWeb] builds it. *)
Definition make_context (process_cwd cli_version : string) (config : AppConfig)
    (sandbox : SandboxStatus * option string) : ServerContext :=
  {| cwd := process_cwd;
     model := config_model config;
     provider := default "openai" (config_provider config);
     disableResponseStorage := truthy (config_disableResponseStorage config);
     version := cli_version;
     sandboxStatus := sandbox.1;
     sandboxMessage := sandbox.2 |}.

Definition json_member (k v : string) : string :=
  dquote +:+ k +:+ dquote +:+ ":" +:+ v.

(** [JSON.stringify(context)]: the members in the order of the object
    literal, a member that is undefined left out. *)
Definition JSON_stringify (context : ServerContext) : string :=
  "{" +:+ json_member "cwd" (json_string (cwd context))
  +:+ "," +:+ json_member "model" (json_string (model context))
  +:+ "," +:+ json_member "provider" (json_string (provider context))
  +:+ "," +:+ json_member "disableResponseStorage"
                (json_bool (disableResponseStorage context))
  +:+ "," +:+ json_member "version" (json_string (version context))
  +:+ "," +:+ json_member "sandboxStatus"
                (json_string (status_name (sandboxStatus context)))
  +:+ match sandboxMessage context with
      | Some message =>
          "," +:+ json_member "sandboxMessage" (json_string message)
      | None => ""
      end
  +:+ "}".

(** The text put in the script of the page for [SERVER_CONTEXT]. *)
Definition serializedContext (context : ServerContext) : string :=
  replace_all lt "\u003c" (JSON_stringify context).

(** The characters of a string. *)
Definition chars (s : string) : list ascii := list_ascii_of_string s.

End Page.

(** ** The output of a command in the terminal: [truncateOutput] *)

Module CommandStatus.
Import JS.

Definition newline : ascii := ascii_of_nat 10.

(** [text.split(sep)] for the separator that is one line feed: there is
    always at least one piece. *)
Fixpoint split (s : string) : list string :=
  match s with
  | EmptyString => [EmptyString]
  | String c rest =>
      if Ascii.eqb c newline then EmptyString :: split rest
      else
        match split rest with
        | line :: lines => String c line :: lines
        | [] => [String c EmptyString]
        end
  end.

(** [lines.join(sep)] for the same separator. *)
Fixpoint join (lines : list string) : string :=
  match lines with
  | [] => EmptyString
  | line :: rest =>
      match rest with
      | [] => line
      | _ => line +:+ nl +:+ join rest
      end
  end.

(** A length in a template literal: its decimal digits. *)
Definition decimal (n : nat) : string :=
  NilZero.string_of_uint (Nat.to_uint n).

(** The line that stands for the lines left out. *)
Definition more_lines (remaining : nat) : string :=
  "... (" +:+ decimal remaining +:+ " more lines)".

Definition truncateOutput (text : string) (fullStdout : option bool) : string :=
  if default false fullStdout then text
  else
    let lines := split text in
    if (length lines <=? 4)%nat then text
    else
      let head := take 4 lines in
      let remaining := (length lines - 4)%nat in
      join (head ++ [more_lines remaining]).

(** A string that holds no line feed. *)
Definition one_line (s : string) : Prop :=
  Forall (λ c, c ≠ newline) (list_ascii_of_string s).

End CommandStatus.

(** ** Properties of the multi-session front end *)

Module WebFacts.
Import JS Web.

(** *** Writing to responses *)

Lemma same_but_wire_refl w : same_but_wire w w.
Proof. by repeat split. Qed.

Lemma same_but_wire_trans w1 w2 w3 :
  same_but_wire w1 w2 → same_but_wire w2 w3 → same_but_wire w1 w3.
Proof.
  intros (?&?&?&?) (?&?&?&?). repeat split; congruence.
Qed.

Lemma sent_write res chunk w c :
  sent (write res chunk w) c =
  if decide (c = res) then sent w c ++ [chunk] else sent w c.
Proof.
  unfold sent at 1, write; simpl. case_decide as Hc.
  - subst c. by rewrite lookup_insert_eq.
  - by rewrite lookup_insert_ne.
Qed.

Lemma write_same res chunk w : same_but_wire w (write res chunk w).
Proof. by repeat split. Qed.

Lemma wire_write_is_Some res chunk w c :
  is_Some (wire w !! c) → is_Some (wire (write res chunk w) !! c).
Proof.
  intros Hc. unfold write; simpl.
  destruct (decide (res = c)) as [->|Hne].
  - rewrite lookup_insert_eq. eauto.
  - by rewrite lookup_insert_ne.
Qed.

Lemma writeEvent_same res event w : same_but_wire w (writeEvent res event w).
Proof. unfold writeEvent. by destruct (data event); repeat split. Qed.

Lemma sent_writeEvent res event w c :
  sent (writeEvent res event w) c =
  if decide (c = res) then sent w c ++ frame event else sent w c.
Proof.
  unfold writeEvent, frame.
  destruct (data event) as [d|]; rewrite !sent_write;
    case_decide; simpl; by rewrite <- ?app_assoc.
Qed.

Lemma wire_writeEvent_is_Some res event w c :
  is_Some (wire w !! c) → is_Some (wire (writeEvent res event w) !! c).
Proof.
  intros Hc. unfold writeEvent.
  destruct (data event); repeat apply wire_write_is_Some; done.
Qed.

(** The loop of [emit] over the listeners. *)
Lemma broadcast_same event ls w :
  same_but_wire w (foldl (λ w listener, writeEvent listener event w) w ls).
Proof.
  revert w. induction ls as [|c ls IH]; intros w; simpl.
  - apply same_but_wire_refl.
  - eapply same_but_wire_trans; [apply writeEvent_same | apply IH].
Qed.

Lemma sent_broadcast event ls w c :
  NoDup ls →
  sent (foldl (λ w listener, writeEvent listener event w) w ls) c =
  sent w c ++ if decide (c ∈ ls) then frame event else [].
Proof.
  intros Hnd. revert w.
  induction Hnd as [|c' ls Hnotin Hnd IH]; intros w; cbn [foldl].
  - rewrite decide_False; [by rewrite app_nil_r | apply not_elem_of_nil].
  - rewrite IH, sent_writeEvent.
    destruct (decide (c = c')) as [->|Hne].
    + rewrite (decide_False (P := c' ∈ ls)) by done.
      rewrite decide_True by (apply elem_of_cons; by left).
      by rewrite app_nil_r.
    + destruct (decide (c ∈ ls)) as [Hin|Hout].
      * rewrite decide_True; [done | apply elem_of_cons; by right].
      * rewrite decide_False; [done |].
        rewrite elem_of_cons. intros [?|?]; done.
Qed.

Lemma wire_broadcast_is_Some event ls w c :
  is_Some (wire w !! c) →
  is_Some (wire (foldl (λ w listener, writeEvent listener event w) w ls) !! c).
Proof.
  revert w. induction ls as [|c' ls IH]; intros w Hc; simpl; [done|].
  by apply IH, wire_writeEvent_is_Some.
Qed.

(** The replay loop of the stream handler. *)
Lemma replay_same res evs w :
  same_but_wire w (foldl (λ w event, writeEvent res event w) w evs).
Proof.
  revert w. induction evs as [|e evs IH]; intros w; simpl.
  - apply same_but_wire_refl.
  - eapply same_but_wire_trans; [apply writeEvent_same | apply IH].
Qed.

Lemma sent_replay res evs w c :
  sent (foldl (λ w event, writeEvent res event w) w evs) c =
  if decide (c = res) then sent w c ++ flat_map frame evs else sent w c.
Proof.
  revert w. induction evs as [|e evs IH]; intros w; simpl.
  - case_decide; by rewrite ?app_nil_r.
  - rewrite IH, sent_writeEvent. case_decide; [|done].
    by rewrite <- app_assoc.
Qed.

Lemma wire_replay_is_Some res evs w c :
  is_Some (wire w !! c) →
  is_Some (wire (foldl (λ w event, writeEvent res event w) w evs) !! c).
Proof.
  revert w. induction evs as [|e evs IH]; intros w Hc; simpl; [done|].
  by apply IH, wire_writeEvent_is_Some.
Qed.

(** No chunk of an event is taken for a keep-alive comment. *)
Lemma received_frame event : received (frame event) = frame event.
Proof.
  unfold received, frame.
  destruct (data event) as [d|]; cbn [app];
    repeat (rewrite filter_cons_True
              by (intros H; cbv in H; discriminate H));
    by rewrite filter_nil.
Qed.

Lemma received_keep_alive chunks :
  received (chunks ++ [keep_alive_chunk]) = received chunks.
Proof.
  unfold received. rewrite filter_app, filter_cons_False by (by intros H).
  by rewrite filter_nil, app_nil_r.
Qed.

(** *** What [emit] does *)

Section Emit.
Variables (w : Server) (r : Ref) (s : Session) (event : SessionEvent).
Hypothesis Hs : heap w !! r = Some s.

Lemma emit_heap : heap (emit r event w) = alter (push event) r (heap w).
Proof.
  unfold emit. rewrite Hs.
  by destruct (broadcast_same event (listeners s)
                 (with_heap (alter (push event) r) w)) as (->&_).
Qed.

Lemma emit_rest :
  sessions (emit r event w) = sessions w ∧
  agents (emit r event w) = agents w ∧
  streams (emit r event w) = streams w.
Proof.
  unfold emit. rewrite Hs.
  by destruct (broadcast_same event (listeners s)
                 (with_heap (alter (push event) r) w)) as (_&->&->&->).
Qed.

Lemma sent_emit c :
  NoDup (listeners s) →
  sent (emit r event w) c =
  sent w c ++ if decide (c ∈ listeners s) then frame event else [].
Proof.
  intros Hnd. unfold emit. rewrite Hs. by rewrite sent_broadcast.
Qed.

Lemma wire_emit_is_Some c :
  is_Some (wire w !! c) → is_Some (wire (emit r event w) !! c).
Proof.
  intros Hc. unfold emit. rewrite Hs. by apply wire_broadcast_is_Some.
Qed.
End Emit.

(** *** Session objects in the heap *)

Lemma lookup_alter_inv (f : Session → Session) r (h : list Session) r' s' :
  alter f r h !! r' = Some s' →
  ∃ s, h !! r' = Some s ∧ s' = if decide (r' = r) then f s else s.
Proof.
  intros H. destruct (decide (r' = r)) as [->|Hne].
  - rewrite list_lookup_alter_eq in H.
    destruct (h !! r) as [s|]; simplify_eq/=. eauto.
  - rewrite list_lookup_alter_ne in H by done. eauto.
Qed.

Lemma lookup_alter_here (f : Session → Session) r (h : list Session) s :
  h !! r = Some s → alter f r h !! r = Some (f s).
Proof. intros H. by rewrite list_lookup_alter_eq, H. Qed.

Lemma idle_test s :
  completed s && (length (listeners s) =? 0)%nat = true ↔ idle s.
Proof.
  unfold idle. rewrite andb_true_iff, Nat.eqb_eq.
  split; intros [? H]; split; try done.
  - by destruct (listeners s).
  - by rewrite H.
Qed.

Lemma cleanup_same r w :
  heap (cleanupSessionIfIdle r w) = heap w ∧
  wire (cleanupSessionIfIdle r w) = wire w ∧
  agents (cleanupSessionIfIdle r w) = agents w ∧
  streams (cleanupSessionIfIdle r w) = streams w.
Proof.
  unfold cleanupSessionIfIdle. destruct (heap w !! r) as [s|]; [|done].
  by destruct (completed s && (length (listeners s) =? 0)%nat).
Qed.

Lemma cleanup_sessions r w s :
  heap w !! r = Some s →
  sessions (cleanupSessionIfIdle r w) =
  if decide (idle s) then delete (id s) (sessions w) else sessions w.
Proof.
  intros Hs. unfold cleanupSessionIfIdle. rewrite Hs.
  destruct (completed s && (length (listeners s) =? 0)%nat) eqn:Ht.
  - apply idle_test in Ht. by rewrite decide_True.
  - rewrite decide_False; [done|]. intros Hi%idle_test. congruence.
Qed.

(** *** The steps, field by field *)

Lemma emitted_settle r o : ∃ event, emitted (Settle r o) = Some (r, event).
Proof. destruct o as [[m|v]|]; simpl; eauto. Qed.

Section Settle.
Variables (w : Server) (r : Ref) (s : Session).
Variables (o : option Thrown) (event : SessionEvent).
Hypothesis Hs : heap w !! r = Some s.
Hypothesis Hev : emitted (Settle r o) = Some (r, event).

Lemma settle_unfold :
  settle r o w =
  cleanupSessionIfIdle r
    (with_heap (alter set_completed r)
       (with_agents (delete r) (emit r event w))).
Proof.
  unfold settle. destruct o as [[m|v]|]; simpl in Hev; by simplify_eq.
Qed.

Lemma settle_heap :
  heap (settle r o w) =
  alter set_completed r (alter (push event) r (heap w)).
Proof.
  rewrite settle_unfold.
  destruct (cleanup_same r (with_heap (alter set_completed r)
    (with_agents (delete r) (emit r event w)))) as (->&_).
  simpl. by rewrite (emit_heap w r s).
Qed.

Lemma settle_lookup :
  heap (settle r o w) !! r = Some (set_completed (push event s)).
Proof.
  rewrite settle_heap. by apply lookup_alter_here, lookup_alter_here.
Qed.

Lemma settle_sessions :
  sessions (settle r o w) =
  if decide (listeners s = []) then delete (id s) (sessions w)
  else sessions w.
Proof.
  rewrite settle_unfold.
  rewrite (cleanup_sessions _ _ (set_completed (push event s))).
  - simpl. destruct (emit_rest w r s event Hs) as (->&_).
    destruct (decide (listeners s = [])) as [Hl|Hl].
    + by rewrite decide_True.
    + rewrite decide_False; [done|]. by intros [_ ?].
  - simpl. rewrite (emit_heap w r s) by done.
    by apply lookup_alter_here, lookup_alter_here.
Qed.

Lemma settle_agents : agents (settle r o w) = delete r (agents w).
Proof.
  rewrite settle_unfold.
  destruct (cleanup_same r (with_heap (alter set_completed r)
    (with_agents (delete r) (emit r event w)))) as (_&_&->&_).
  simpl. by destruct (emit_rest w r s event Hs) as (_&->&_).
Qed.

Lemma settle_streams : streams (settle r o w) = streams w.
Proof.
  rewrite settle_unfold.
  destruct (cleanup_same r (with_heap (alter set_completed r)
    (with_agents (delete r) (emit r event w)))) as (_&_&_&->).
  simpl. by destruct (emit_rest w r s event Hs) as (_&_&->).
Qed.

Lemma settle_wire : wire (settle r o w) = wire (emit r event w).
Proof.
  rewrite settle_unfold.
  by destruct (cleanup_same r (with_heap (alter set_completed r)
    (with_agents (delete r) (emit r event w)))) as (_&->&_).
Qed.

Lemma sent_settle c :
  NoDup (listeners s) →
  sent (settle r o w) c =
  sent w c ++ if decide (c ∈ listeners s) then frame event else [].
Proof.
  intros Hnd. rewrite <- (sent_emit w r s event Hs c Hnd).
  unfold sent. by rewrite settle_wire.
Qed.
End Settle.

Section GetStream.
Variables (w : Server) (sid : string) (res : Conn) (r : Ref) (s : Session).
Hypothesis Hsid : sessions w !! sid = Some r.
Hypothesis Hs : heap w !! r = Some s.

Let w' := (get_stream sid res w).1.

Lemma get_stream_reply : (get_stream sid res w).2 = EventStream.
Proof. unfold get_stream. by rewrite Hsid. Qed.

Lemma get_stream_heap : heap w' = alter (add_listener res) r (heap w).
Proof.
  unfold w', get_stream. rewrite Hsid. cbn [fst streams with_streams heap].
  by match goal with
     | |- heap (foldl _ ?w0 ?evs) = _ =>
         destruct (replay_same res evs w0) as (->&_)
     end.
Qed.

Lemma get_stream_rest :
  sessions w' = sessions w ∧ agents w' = agents w ∧
  streams w' = <[res := r]> (streams w).
Proof.
  unfold w', get_stream. rewrite Hsid.
  cbn [fst streams with_streams heap sessions agents].
  by match goal with
     | |- sessions (foldl _ ?w0 ?evs) = _ ∧ _ =>
         destruct (replay_same res evs w0) as (_&->&->&->)
     end.
Qed.

Lemma sent_get_stream c :
  sent w' c =
  if decide (c = res) then flat_map frame (events s) else sent w c.
Proof.
  unfold w', get_stream. rewrite Hsid.
  unfold sent at 1. cbn [fst wire with_streams].
  match goal with
  | |- default [] (wire (foldl _ ?w0 ?evs) !! c) = _ =>
      change (sent (foldl (λ w event, writeEvent res event w) w0 evs) c = 
              if decide (c = res) then flat_map frame (events s)
              else sent w c)
  end.
  rewrite sent_replay. cbn [heap with_heap with_wire].
  rewrite (lookup_alter_here _ _ _ _ Hs). cbn [from_option add_listener events].
  unfold sent; cbn [wire with_heap with_wire].
  case_decide as Hc.
  - subst c. by rewrite lookup_insert_eq.
  - by rewrite lookup_insert_ne.
Qed.

Lemma wire_get_stream_is_Some c :
  is_Some (wire w !! c) ∨ c = res → is_Some (wire w' !! c).
Proof.
  intros Hc. unfold w', get_stream. rewrite Hsid.
  cbn [fst wire with_streams]. apply wire_replay_is_Some.
  cbn [wire with_heap with_wire].
  destruct (decide (res = c)) as [->|Hne].
  - rewrite lookup_insert_eq. eauto.
  - rewrite lookup_insert_ne by done. by destruct Hc.
Qed.
End GetStream.

Section Close.
Variables (w : Server) (res : Conn) (r : Ref) (s : Session).
Hypothesis Hres : streams w !! res = Some r.
Hypothesis Hs : heap w !! r = Some s.

Lemma on_close_unfold :
  on_close res w = detach r res (with_streams (delete res) w).
Proof. unfold on_close. by rewrite Hres. Qed.

Lemma on_close_heap :
  heap (on_close res w) = alter (delete_listener res) r (heap w).
Proof.
  rewrite on_close_unfold. unfold detach.
  by match goal with
     | |- heap (cleanupSessionIfIdle r ?w0) = _ =>
         destruct (cleanup_same r w0) as (->&_)
     end.
Qed.

Lemma on_close_rest :
  wire (on_close res w) = wire w ∧ agents (on_close res w) = agents w ∧
  streams (on_close res w) = delete res (streams w).
Proof.
  rewrite on_close_unfold. unfold detach.
  by match goal with
     | |- wire (cleanupSessionIfIdle r ?w0) = _ ∧ _ =>
         destruct (cleanup_same r w0) as (_&->&->&->)
     end.
Qed.

Lemma on_close_sessions :
  sessions (on_close res w) =
  if decide (idle (delete_listener res s))
  then delete (id s) (sessions w) else sessions w.
Proof.
  rewrite on_close_unfold. unfold detach.
  rewrite (cleanup_sessions _ _ (delete_listener res s)); [done|].
  simpl. by apply lookup_alter_here.
Qed.
End Close.

(** *** The invariant *)

Lemma lookup_alter_iff (f : Session → Session) r (h : list Session) r' s' :
  alter f r h !! r' = Some s' ↔
  ∃ s, h !! r' = Some s ∧ s' = if decide (r' = r) then f s else s.
Proof.
  split; [apply lookup_alter_inv|].
  intros (s & Hs & ->). case_decide as Hr.
  - subst. by apply lookup_alter_here.
  - by rewrite list_lookup_alter_ne.
Qed.

Lemma Inv_init : Inv init.
Proof.
  split; simpl; try done.
  - intros k r. rewrite lookup_empty. split; [done|]. by intros (s & ? & _).
  - intros r. rewrite lookup_empty. split; [by intros [? ?]|]. by intros (s & ? & _).
  - intros res r. rewrite lookup_empty. split; [done|]. by intros (s & ? & _).
  - intros res. rewrite lookup_empty. by intros [? ?].
Qed.

(** A change of one session object that keeps its identifier, its
    listeners and its completion flag. *)
Lemma Inv_emit w r event :
  Inv w → is_Some (agents w !! r) →
  of_type "item" event ∨ of_type "status" event →
  Inv (emit r event w).
Proof.
  intros HI Hag Hty.
  destruct (proj1 (inv_agents w HI r) Hag) as (s & Hs & Hc).
  pose proof (emit_heap w r s event Hs) as Hh.
  destruct (emit_rest w r s event Hs) as (Hse & Ha & Hst).
  pose proof (inv_nodup w HI r s Hs) as Hnd.
  split.
  - rewrite Hh. intros r1 r2 s1 s2 (t1 & H1 & ->)%lookup_alter_inv (t2 & H2 & ->)%lookup_alter_inv Hid.
    apply (inv_ids w HI r1 r2 t1 t2 H1 H2).
    by repeat case_decide.
  - rewrite Hh, Hse. intros k r0. rewrite (inv_registry w HI).
    setoid_rewrite lookup_alter_iff. split.
    + intros (s0 & H0 & Hk & Hi). eexists; split; [eauto|]. by case_decide.
    + intros (s0' & (s0 & H0 & ->) & Hk & Hi). exists s0. by case_decide.
  - rewrite Hh, Ha. intros r0. rewrite (inv_agents w HI).
    setoid_rewrite lookup_alter_iff. split.
    + intros (s0 & H0 & Hk). eexists; split; [eauto|]. by case_decide.
    + intros (s0' & (s0 & H0 & ->) & Hk). exists s0. by case_decide.
  - rewrite Hh, Hst. intros res r0. rewrite (inv_streams w HI).
    setoid_rewrite lookup_alter_iff. split.
    + intros (s0 & H0 & Hk). eexists; split; [eauto|]. by case_decide.
    + intros (s0' & (s0 & H0 & ->) & Hk). exists s0. by case_decide.
  - rewrite Hst. intros res Hres. apply (wire_emit_is_Some w r s event Hs).
    by apply (inv_open w HI).
  - rewrite Hh. intros r0 s0' (s0 & H0 & ->)%lookup_alter_inv.
    pose proof (inv_nodup w HI r0 s0 H0). by case_decide.
  - rewrite Hh. intros r0 s0' res (s0 & H0 & ->)%lookup_alter_inv Hin.
    rewrite (sent_emit w r s event Hs res Hnd).
    unfold received. rewrite filter_app. fold (received (sent w res)).
    case_decide as Hr.
    + subst r0. assert (s0 = s) as -> by congruence.
      simpl in Hin |- *. rewrite decide_True by done.
      rewrite (inv_sent w HI r s res Hs Hin).
      rewrite flat_map_app. simpl. rewrite app_nil_r. f_equal.
      apply received_frame.
    + rewrite decide_False.
      * rewrite filter_nil, app_nil_r. by apply (inv_sent w HI r0).
      * intros Hin'. apply Hr.
        assert (streams w !! res = Some r0) as H1 by (apply (inv_streams w HI); eauto).
        assert (streams w !! res = Some r) as H2 by (apply (inv_streams w HI); eauto).
        congruence.
  - rewrite Hh. intros r0 s0' (s0 & H0 & ->)%lookup_alter_inv Hc0.
    case_decide as Hr.
    + subst r0. simpl in *. apply Forall_app. split; [by apply (inv_log w HI r) | by apply Forall_singleton].
    + by apply (inv_log w HI r0).
Qed.

Lemma received_frames evs :
  received (flat_map frame evs) = flat_map frame evs.
Proof.
  induction evs as [|e evs IH]; [done|].
  cbn [flat_map]. unfold received in *. rewrite filter_app, IH.
  f_equal. apply received_frame.
Qed.

Local Arguments compose /.
Lemma Inv_settle w r o :
  Inv w → is_Some (agents w !! r) → Inv (settle r o w).
Proof.
  intros HI Hag.
  destruct (proj1 (inv_agents w HI r) Hag) as (s & Hs & Hc).
  destruct (emitted_settle r o) as (event & Hev).
  pose proof (settle_heap w r s o event Hs Hev) as Hh.
  rewrite list_alter_alter_eq in Hh.
  pose proof (settle_sessions w r s o event Hs Hev) as Hse.
  pose proof (settle_agents w r s o event Hs Hev) as Ha.
  pose proof (settle_streams w r s o event Hs Hev) as Hst.
  pose proof (inv_nodup w HI r s Hs) as Hnd.
  assert (sessions w !! id s = Some r) as Hreg.
  { apply (inv_registry w HI). exists s. repeat split; [done|].
    intros [? _]. congruence. }
  split.
  - rewrite Hh. intros r1 r2 s1 s2 (t1 & H1 & ->)%lookup_alter_inv
      (t2 & H2 & ->)%lookup_alter_inv Hid.
    apply (inv_ids w HI r1 r2 t1 t2 H1 H2). by repeat case_decide.
  - rewrite Hh, Hse. intros k r0. setoid_rewrite lookup_alter_iff.
    destruct (decide (listeners s = [])) as [Hl|Hl].
    + split.
      * intros [Hk H]%lookup_delete_Some.
        apply (inv_registry w HI) in H as (s0 & H0 & Hid & Hi).
        exists s0. repeat split; [|done|done].
        exists s0. split; [done|]. rewrite decide_False; [done|].
        intros ->. congruence.
      * intros (s0' & (s0 & H0 & ->) & Hk & Hi).
        destruct (decide (r0 = r)) as [Hr|Hr].
        -- subst r0. exfalso. apply Hi. split; [done|].
           simpl. congruence.
        -- apply lookup_delete_Some. split.
           ++ intros Hid. apply Hr.
              apply (inv_ids w HI r0 r s0 s H0 Hs). congruence.
           ++ apply (inv_registry w HI). eauto.
    + rewrite (inv_registry w HI). split.
      * intros (s0 & H0 & Hk & Hi). eexists; split; [eauto|].
        destruct (decide (r0 = r)); [|done]. subst r0. split; [done|].
        intros [_ ?]. assert (s0 = s) as -> by congruence. done.
      * intros (s0' & (s0 & H0 & ->) & Hk & Hi). exists s0.
        destruct (decide (r0 = r)); [|done]. subst r0.
        repeat split; [done|done|].
        intros [? _]. congruence.
  - rewrite Hh, Ha. intros r0. setoid_rewrite lookup_alter_iff.
    destruct (decide (r0 = r)) as [->|Hne].
    + rewrite lookup_delete_eq. split; [by intros [? ?]|].
      by intros (s0' & (s0 & H0 & ->) & Hk).
    + rewrite lookup_delete_ne by done. rewrite (inv_agents w HI). split.
      * intros (s0 & H0 & Hk). eauto.
      * intros (s0' & (s0 & H0 & ->) & Hk). eauto.
  - rewrite Hh, Hst. intros res r0. rewrite (inv_streams w HI).
    setoid_rewrite lookup_alter_iff. split.
    + intros (s0 & H0 & Hk). eexists; split; [eauto|]. by destruct (decide (r0 = r)).
    + intros (s0' & (s0 & H0 & ->) & Hk). exists s0.
      split; [done|]. by destruct (decide (r0 = r)).
  - rewrite Hst. intros res Hres.
    rewrite (settle_wire w r o event Hev).
    apply (wire_emit_is_Some w r s event Hs). by apply (inv_open w HI).
  - rewrite Hh. intros r0 s0' (s0 & H0 & ->)%lookup_alter_inv.
    pose proof (inv_nodup w HI r0 s0 H0). by destruct (decide (r0 = r)).
  - rewrite Hh. intros r0 s0' res (s0 & H0 & ->)%lookup_alter_inv Hin.
    rewrite (sent_settle w r s o event Hs Hev res Hnd).
    unfold received. rewrite filter_app. fold (received (sent w res)).
    destruct (decide (r0 = r)) as [Hr|Hr].
    + subst r0. assert (s0 = s) as -> by congruence.
      simpl in Hin |- *. rewrite decide_True by done.
      rewrite (inv_sent w HI r s res Hs Hin).
      rewrite flat_map_app. simpl. rewrite app_nil_r. f_equal.
      apply received_frame.
    + rewrite decide_False.
      * rewrite filter_nil, app_nil_r. by apply (inv_sent w HI r0).
      * intros Hin'. apply Hr.
        assert (streams w !! res = Some r0) as H1
          by (apply (inv_streams w HI); eauto).
        assert (streams w !! res = Some r) as H2
          by (apply (inv_streams w HI); eauto).
        congruence.
  - rewrite Hh. intros r0 s0' (s0 & H0 & ->)%lookup_alter_inv Hc0.
    destruct (decide (r0 = r)) as [Hr|Hr]; [done|]. by apply (inv_log w HI r0).
Qed.

Lemma lookup_snoc_iff (h : list Session) new r s :
  (h ++ [new]) !! r = Some s ↔
  h !! r = Some s ∨ r = length h ∧ s = new.
Proof.
  rewrite lookup_snoc_Some. split.
  - intros [[_ ?]|[? ?]]; eauto.
  - intros [H|[? ?]]; [left|right]; eauto using lookup_lt_Some.
Qed.

Lemma Inv_post_run w body uuid :
  Inv w → uuid ∉ id <$> heap w → Inv (post_run body uuid w).1.
Proof.
  intros HI Hfresh. unfold post_run.
  destruct (String.eqb (prompt_text (get body "prompt")) ""); [done|].
  cbn [createSession fst]. unfold runAgentForSession.
  set (new := {| id := uuid; events := []; listeners := []; completed := false |}).
  assert (∀ r s, heap w !! r = Some s → id s ≠ uuid) as Hold.
  { intros r s Hs Hid. apply Hfresh. rewrite <- Hid.
    apply list_elem_of_fmap_2. by eapply list_elem_of_lookup_2. }
  split; simpl.
  - intros r1 r2 s1 s2 [H1|[-> ->]]%lookup_snoc_iff [H2|[-> ->]]%lookup_snoc_iff Hid;
      [by eapply (inv_ids w HI)| | |done].
    + by apply Hold in H1.
    + symmetry in Hid. by apply Hold in H2.
  - intros k r. setoid_rewrite lookup_snoc_iff. split.
    + intros [[-> ->]|[Hk H]]%lookup_insert_Some.
      * exists new. repeat split; [by right|]. by intros [? _].
      * apply (inv_registry w HI) in H as (s & Hs & Hid & Hi). eauto 6.
    + intros (s & [Hs|[-> ->]] & Hid & Hi).
      * rewrite lookup_insert_ne by (intros ->; by eapply Hold).
        apply (inv_registry w HI). eauto.
      * simpl in Hid. subst k. apply lookup_insert_eq.
  - intros r. setoid_rewrite lookup_snoc_iff.
    destruct (decide (r = length (heap w))) as [->|Hne].
    + rewrite lookup_insert_eq. split; [|eauto].
      intros _. exists new. split; [by right|done].
    + rewrite lookup_insert_ne by done. rewrite (inv_agents w HI). split.
      * intros (s & Hs & Hc). eauto.
      * intros (s & [Hs|[-> ->]] & Hc); [eauto|done].
  - intros res r. setoid_rewrite lookup_snoc_iff.
    rewrite (inv_streams w HI). split.
    + intros (s & Hs & Hin). eauto.
    + intros (s & [Hs|[-> ->]] & Hin); [eauto|].
      by apply elem_of_nil in Hin.
  - apply (inv_open w HI).
  - intros r s [Hs|[-> ->]]%lookup_snoc_iff.
    + by apply (inv_nodup w HI r).
    + apply NoDup_nil_2.
  - intros r s res [Hs|[-> ->]]%lookup_snoc_iff Hin.
    + by apply (inv_sent w HI r).
    + by apply elem_of_nil in Hin.
  - intros r s [Hs|[-> ->]]%lookup_snoc_iff Hc.
    + by apply (inv_log w HI r).
    + apply Forall_nil_2.
Qed.

Lemma Inv_keep_alive w res : Inv w → Inv (keep_alive res w).
Proof.
  intros HI. unfold keep_alive.
  split; try apply HI.
  - intros c Hc. apply wire_write_is_Some. by apply (inv_open w HI).
  - intros r s c Hs Hin. rewrite sent_write. case_decide.
    + rewrite received_keep_alive. by apply (inv_sent w HI r).
    + by apply (inv_sent w HI r).
Qed.

Lemma Inv_get_stream w sid res :
  Inv w → wire w !! res = None → Inv (get_stream sid res w).1.
Proof.
  intros HI Hfresh.
  destruct (sessions w !! sid) as [r|] eqn:Hsid;
    [|unfold get_stream; by rewrite Hsid].
  destruct (proj1 (inv_registry w HI sid r) Hsid) as (s & Hs & Hid & Hi).
  pose proof (get_stream_heap w sid res r Hsid) as Hh.
  destruct (get_stream_rest w sid res r Hsid) as (Hse & Ha & Hst).
  pose proof (sent_get_stream w sid res r s Hsid Hs) as Hsent.
  pose proof (wire_get_stream_is_Some w sid res r Hsid) as Hwire.
  assert (∀ r0 s0, heap w !! r0 = Some s0 → res ∉ listeners s0) as Hnew.
  { intros r0 s0 H0 Hin.
    assert (is_Some (wire w !! res)) as [? ?]; [|congruence].
    apply (inv_open w HI). exists r0. apply (inv_streams w HI). eauto. }
  assert (listeners (add_listener res s) = listeners s ++ [res]) as Hadd.
  { simpl. rewrite decide_False; [done | by eapply Hnew]. }
  split.
  - rewrite Hh. intros r1 r2 s1 s2 (t1 & H1 & ->)%lookup_alter_inv
      (t2 & H2 & ->)%lookup_alter_inv Hid'.
    apply (inv_ids w HI r1 r2 t1 t2 H1 H2). by repeat case_decide.
  - rewrite Hh, Hse. intros k r0. rewrite (inv_registry w HI).
    setoid_rewrite lookup_alter_iff. split.
    + intros (s0 & H0 & Hk & Hi0). eexists; split; [eauto|].
      case_decide; [|done]. subst r0. split; [done|].
      assert (s0 = s) as -> by congruence.
      intros [_ Hl]. rewrite Hadd in Hl. by destruct (listeners s).
    + intros (s0' & (s0 & H0 & ->) & Hk & Hi0). exists s0.
      case_decide; [|done]. subst r0.
      assert (s0 = s) as -> by congruence. done.
  - rewrite Hh, Ha. intros r0. rewrite (inv_agents w HI).
    setoid_rewrite lookup_alter_iff. split.
    + intros (s0 & H0 & Hk). eexists; split; [eauto|]. by case_decide.
    + intros (s0' & (s0 & H0 & ->) & Hk). exists s0. by case_decide.
  - rewrite Hh, Hst. intros c r0. setoid_rewrite lookup_alter_iff.
    destruct (decide (c = res)) as [->|Hc].
    + rewrite lookup_insert_eq. split.
      * intros [= <-]. exists (add_listener res s). split.
        -- exists s. by rewrite decide_True.
        -- rewrite Hadd. apply elem_of_app. right. by apply list_elem_of_singleton.
      * intros (s0' & (s0 & H0 & ->) & Hin).
        destruct (decide (r0 = r)) as [->|Hne]; [done|].
        by apply (Hnew _ _ H0) in Hin.
    + rewrite lookup_insert_ne by done. rewrite (inv_streams w HI). split.
      * intros (s0 & H0 & Hin). eexists; split; [eauto|].
        destruct (decide (r0 = r)) as [->|Hne]; [|done].
        assert (s0 = s) as -> by congruence.
        rewrite Hadd. apply elem_of_app. by left.
      * intros (s0' & (s0 & H0 & ->) & Hin). exists s0. split; [done|].
        destruct (decide (r0 = r)) as [->|Hne]; [|done].
        assert (s0 = s) as -> by congruence.
        rewrite Hadd in Hin. apply elem_of_app in Hin as [?|Hin]; [done|].
        by apply list_elem_of_singleton in Hin.
  - rewrite Hst. intros c Hc. apply Hwire.
    destruct (decide (c = res)) as [->|Hne]; [by right|left].
    rewrite lookup_insert_ne in Hc by done. by apply (inv_open w HI).
  - rewrite Hh. intros r0 s0' (s0 & H0 & ->)%lookup_alter_inv.
    destruct (decide (r0 = r)) as [->|Hne]; [|by apply (inv_nodup w HI r0)].
    assert (s0 = s) as -> by congruence. rewrite Hadd.
    apply NoDup_app. split; [by apply (inv_nodup w HI r)|]. split.
    + intros c Hin ->%list_elem_of_singleton. by eapply Hnew.
    + apply NoDup_singleton.
  - rewrite Hh. intros r0 s0' c (s0 & H0 & ->)%lookup_alter_inv Hin.
    rewrite Hsent.
    destruct (decide (r0 = r)) as [->|Hne].
    + assert (s0 = s) as -> by congruence. rewrite Hadd in Hin.
      cbn [events add_listener].
      destruct (decide (c = res)) as [->|Hc]; [apply received_frames|].
      apply (inv_sent w HI r s c Hs).
      apply elem_of_app in Hin as [?|Hin]; [done|].
      by apply list_elem_of_singleton in Hin.
    + rewrite decide_False; [by apply (inv_sent w HI r0)|].
      intros ->. by eapply Hnew.
  - rewrite Hh. intros r0 s0' (s0 & H0 & ->)%lookup_alter_inv Hc0.
    destruct (decide (r0 = r)); by apply (inv_log w HI r0 s0).
Qed.

Lemma Inv_on_close w res :
  Inv w → is_Some (streams w !! res) → Inv (on_close res w).
Proof.
  intros HI [r Hres].
  destruct (proj1 (inv_streams w HI res r) Hres) as (s & Hs & Hin).
  pose proof (on_close_heap w res r Hres) as Hh.
  destruct (on_close_rest w res r Hres) as (Hw & Ha & Hst).
  pose proof (on_close_sessions w res r s Hres Hs) as Hse.
  assert (¬ idle s) as Hi by (intros [_ Hl]; rewrite Hl in Hin; by apply elem_of_nil in Hin).
  assert (∀ c s0, c ∈ listeners (delete_listener res s0) ↔ c ≠ res ∧ c ∈ listeners s0)
    as Hdel by (intros c s0; simpl; by rewrite list_elem_of_filter).
  split.
  - rewrite Hh. intros r1 r2 s1 s2 (t1 & H1 & ->)%lookup_alter_inv
      (t2 & H2 & ->)%lookup_alter_inv Hid'.
    apply (inv_ids w HI r1 r2 t1 t2 H1 H2). by repeat case_decide.
  - rewrite Hh, Hse. intros k r0. setoid_rewrite lookup_alter_iff.
    destruct (decide (idle (delete_listener res s))) as [Hl|Hl].
    + split.
      * intros [Hk H]%lookup_delete_Some.
        apply (inv_registry w HI) in H as (s0 & H0 & Hid & Hi0).
        exists s0. repeat split; [|done|done].
        exists s0. split; [done|]. rewrite decide_False; [done|].
        intros ->. congruence.
      * intros (s0' & (s0 & H0 & ->) & Hk & Hi0).
        destruct (decide (r0 = r)) as [Hr|Hr].
        -- subst r0. assert (s0 = s) as -> by congruence. done.
        -- apply lookup_delete_Some. split.
           ++ intros Hid. apply Hr.
              apply (inv_ids w HI r0 r s0 s H0 Hs). congruence.
           ++ apply (inv_registry w HI). eauto.
    + rewrite (inv_registry w HI). split.
      * intros (s0 & H0 & Hk & Hi0). eexists; split; [eauto|].
        destruct (decide (r0 = r)); [|done]. subst r0.
        assert (s0 = s) as -> by congruence. done.
      * intros (s0' & (s0 & H0 & ->) & Hk & Hi0). exists s0.
        destruct (decide (r0 = r)); [|done]. subst r0.
        assert (s0 = s) as -> by congruence. done.
  - rewrite Hh, Ha. intros r0. rewrite (inv_agents w HI).
    setoid_rewrite lookup_alter_iff. split.
    + intros (s0 & H0 & Hk). eexists; split; [eauto|].
      by destruct (decide (r0 = r)).
    + intros (s0' & (s0 & H0 & ->) & Hk). exists s0.
      by destruct (decide (r0 = r)).
  - rewrite Hh, Hst. intros c r0. setoid_rewrite lookup_alter_iff.
    destruct (decide (c = res)) as [->|Hc].
    + rewrite lookup_delete_eq. split; [done|].
      intros (s0' & (s0 & H0 & ->) & Hin').
      destruct (decide (r0 = r)) as [->|Hne].
      * apply Hdel in Hin' as [? _]. done.
      * exfalso. apply Hne.
        assert (streams w !! res = Some r0) by (apply (inv_streams w HI); eauto).
        congruence.
    + rewrite lookup_delete_ne by done. rewrite (inv_streams w HI). split.
      * intros (s0 & H0 & Hin'). eexists; split; [eauto|].
        destruct (decide (r0 = r)); [|done]. by apply Hdel.
      * intros (s0' & (s0 & H0 & ->) & Hin'). exists s0. split; [done|].
        destruct (decide (r0 = r)); [|done]. by apply Hdel in Hin' as [_ ?].
  - rewrite Hst, Hw. intros c Hc. apply (inv_open w HI).
    destruct (decide (c = res)) as [->|Hne].
    + rewrite lookup_delete_eq in Hc. by destruct Hc.
    + by rewrite lookup_delete_ne in Hc.
  - rewrite Hh. intros r0 s0' (s0 & H0 & ->)%lookup_alter_inv.
    pose proof (inv_nodup w HI r0 s0 H0).
    destruct (decide (r0 = r)); [|done]. simpl. by apply NoDup_filter.
  - rewrite Hh. intros r0 s0' c (s0 & H0 & ->)%lookup_alter_inv Hin'.
    unfold sent. rewrite Hw. fold (sent w c).
    destruct (decide (r0 = r)).
    + apply Hdel in Hin' as [_ ?]. by apply (inv_sent w HI r0 s0 c).
    + by apply (inv_sent w HI r0).
  - rewrite Hh. intros r0 s0' (s0 & H0 & ->)%lookup_alter_inv Hc0.
    destruct (decide (r0 = r)); by apply (inv_log w HI r0 s0).
Qed.

Lemma Inv_step w a : Inv w → enabled w a = true → Inv (step w a).
Proof.
  intros HI Hen. destruct a as [body uuid|sid res|res|res|r text|r b|r o];
    simpl in Hen; apply bool_decide_eq_true in Hen; cbn [step].
  - by apply Inv_post_run.
  - by apply Inv_get_stream.
  - by apply Inv_keep_alive.
  - by apply Inv_on_close.
  - apply Inv_emit; [done|done|by left].
  - apply Inv_emit; [done|done|by right].
  - by apply Inv_settle.
Qed.

Lemma Inv_run w acts w' : Inv w → run w acts = Some w' → Inv w'.
Proof.
  revert w. induction acts as [|a acts IH]; intros w HI Hrun; simpl in Hrun.
  - by simplify_eq.
  - destruct (enabled w a) eqn:Hen; [|done].
    eapply IH; [|done]. by apply Inv_step.
Qed.

Lemma Inv_reachable w : reachable w → Inv w.
Proof. intros [acts Hrun]. eapply Inv_run; [apply Inv_init | done]. Qed.

(** *** One session along the steps *)

Lemma emitted_on_cons r a acts :
  emitted_on r (a :: acts) = emitted_on r [a] ++ emitted_on r acts.
Proof.
  unfold emitted_on. simpl.
  by destruct (emitted a) as [[r' e]|]; [destruct (decide (r' = r))|].
Qed.

Lemma emitted_on_single r a :
  emitted_on r [a] =
  match emitted a with
  | Some (r', event) => if decide (r' = r) then [event] else []
  | None => []
  end.
Proof.
  unfold emitted_on. simpl.
  by destruct (emitted a) as [[r' e]|]; [destruct (decide (r' = r))|].
Qed.

Lemma emitted_on_app r acts1 acts2 :
  emitted_on r (acts1 ++ acts2) = emitted_on r acts1 ++ emitted_on r acts2.
Proof.
  induction acts1 as [|a acts1 IH]; [done|].
  rewrite <- app_comm_cons, (emitted_on_cons r a acts1), emitted_on_cons, IH.
  by rewrite app_assoc.
Qed.

Lemma step_session w a r s :
  Inv w → enabled w a = true → heap w !! r = Some s →
  ∃ s', heap (step w a) !! r = Some s' ∧ evolves r a s s'.
Proof.
  intros HI Hen Hs. unfold evolves.
  destruct a as [body uuid|sid res|res|res|r1 text|r1 b|r1 o];
    simpl in Hen; apply bool_decide_eq_true in Hen; cbn [step].
  - exists s. rewrite app_nil_r. repeat split; try done.
    unfold post_run.
    destruct (String.eqb (prompt_text (get body "prompt")) ""); [done|].
    simpl. by apply lookup_app_l_Some.
  - destruct (sessions w !! sid) as [r1|] eqn:Hsid.
    + rewrite (get_stream_heap w sid res r1 Hsid).
      exists (if decide (r = r1) then add_listener res s else s).
      split; [apply lookup_alter_iff; eauto|].
      rewrite app_nil_r. case_decide; repeat split; try done.
      * intros c Hin _. simpl. case_decide; [done|].
        apply elem_of_app. by left.
      * intros Hi [Hc Hl]. simpl in Hc, Hl. exfalso.
        case_decide; [by apply Hi | by destruct (listeners s)].
    + exists s. rewrite app_nil_r. unfold get_stream. rewrite Hsid.
      by repeat split.
  - exists s. rewrite app_nil_r. by repeat split.
  - destruct Hen as [r1 Hres].
    rewrite (on_close_heap w res r1 Hres).
    exists (if decide (r = r1) then delete_listener res s else s).
    split; [apply lookup_alter_iff; eauto|].
    rewrite app_nil_r. case_decide as Hr; repeat split; try done.
    + intros c Hin Hc. simpl. apply list_elem_of_filter. split; [|done].
      intros ->. done.
    + intros _ _. right. exists res. split; [done|]. subst r1.
      apply (inv_streams w HI) in Hres as (s1 & Hs1 & Hin).
      congruence.
  - destruct (proj1 (inv_agents w HI r1) Hen) as (s1 & Hs1 & Hc1).
    unfold onItem. rewrite (emit_heap w r1 s1 _ Hs1).
    eexists. split; [apply lookup_alter_iff; eauto|].
    rewrite emitted_on_single; cbn [emitted].
    destruct (decide (r = r1)) as [->|Hne].
    + assert (s1 = s) as -> by congruence.
      rewrite decide_True by done. repeat split; try done. congruence.
    + rewrite decide_False by done. rewrite app_nil_r. by repeat split.
  - destruct (proj1 (inv_agents w HI r1) Hen) as (s1 & Hs1 & Hc1).
    unfold onLoading. rewrite (emit_heap w r1 s1 _ Hs1).
    eexists. split; [apply lookup_alter_iff; eauto|].
    rewrite emitted_on_single; cbn [emitted].
    destruct (decide (r = r1)) as [->|Hne].
    + assert (s1 = s) as -> by congruence.
      rewrite decide_True by done. repeat split; try done. congruence.
    + rewrite decide_False by done. rewrite app_nil_r. by repeat split.
  - destruct (proj1 (inv_agents w HI r1) Hen) as (s1 & Hs1 & Hc1).
    destruct (emitted_settle r1 o) as (event & Hev).
    rewrite (settle_heap w r1 s1 o event Hs1 Hev), list_alter_alter_eq.
    eexists. split; [apply lookup_alter_iff; eauto|].
    rewrite emitted_on_single, Hev.
    destruct (decide (r = r1)) as [->|Hne].
    + assert (s1 = s) as -> by congruence.
      rewrite decide_True by done. repeat split; try done; [congruence|].
      intros _ _. left. by exists o.
    + rewrite decide_False by done. rewrite app_nil_r. by repeat split.
Qed.

Lemma run_session w acts w' r s :
  Inv w → run w acts = Some w' → heap w !! r = Some s →
  ∃ s', heap w' !! r = Some s' ∧
    id s' = id s ∧
    events s' = events s ++ emitted_on r acts ∧
    (completed s = true → completed s' = true ∧ events s' = events s) ∧
    (∀ c, c ∈ listeners s → Close c ∉ acts → c ∈ listeners s').
Proof.
  revert w s. induction acts as [|a acts IH]; intros w s HI Hrun Hs;
    simpl in Hrun.
  - simplify_eq. exists s. rewrite app_nil_r. by repeat split.
  - destruct (enabled w a) eqn:Hen; [|done].
    destruct (step_session w a r s HI Hen Hs)
      as (s1 & Hs1 & Hid1 & Hev1 & Hc1 & Hl1 & _).
    destruct (IH (step w a) s1 (Inv_step w a HI Hen) Hrun Hs1)
      as (s' & Hs' & Hid & Hev & Hc & Hl).
    exists s'. split; [done|]. split; [congruence|]. split.
    { rewrite emitted_on_cons, app_assoc. congruence. }
    split.
    + intros Hcs. destruct (Hc1 Hcs) as [Hc1' He1].
      destruct (Hc Hc1') as [? ?]. split; [done|congruence].
    + intros c Hin Hnot. apply not_elem_of_cons in Hnot as [Hne Hnot].
      apply Hl; [|done]. apply Hl1; [done|]. congruence.
Qed.

(** *** Attaching: replay, then live delivery *)

(** C1. An observer that attaches to a session at any reachable state of
    the server is first sent the frames of exactly the events then in the
    log, in log order; and as long as its stream is not closed, what it
    has received (keep-alive comments aside) is those frames followed by
    the frames of exactly the events emitted on the session afterwards,
    in emission order, each once. *)
Theorem attach_log_then_live w sid res acts w1 w2 :
  reachable w →
  enabled w (GetStream sid res) = true →
  get_stream sid res w = (w1, EventStream) →
  run w1 acts = Some w2 →
  Close res ∉ acts →
  ∃ r s s2,
    sessions w !! sid = Some r ∧ heap w !! r = Some s ∧
    heap w2 !! r = Some s2 ∧
    events s2 = events s ++ emitted_on r acts ∧
    sent w1 res = flat_map frame (events s) ∧
    received (sent w2 res) =
      flat_map frame (events s) ++ flat_map frame (emitted_on r acts).
Proof.
  intros Hw Hen Hget Hrun Hopen.
  pose proof (Inv_reachable w Hw) as HI.
  assert (Inv w1) as HI1.
  { replace w1 with (step w (GetStream sid res)) by (simpl; by rewrite Hget).
    by apply Inv_step. }
  destruct (sessions w !! sid) as [r|] eqn:Hsid;
    [|unfold get_stream in Hget; rewrite Hsid in Hget; by simplify_eq].
  destruct (proj1 (inv_registry w HI sid r) Hsid) as (s & Hs & Hid & Hi).
  pose proof (sent_get_stream w sid res r s Hsid Hs res) as Hsent.
  pose proof (get_stream_heap w sid res r Hsid) as Hh.
  rewrite Hget in Hsent, Hh. cbn [fst] in Hsent, Hh.
  rewrite decide_True in Hsent by done.
  assert (heap w1 !! r = Some (add_listener res s)) as Hs1
    by (rewrite Hh; by apply lookup_alter_here).
  destruct (run_session w1 acts w2 r _ HI1 Hrun Hs1)
    as (s2 & Hs2 & _ & Hev & _ & Hl).
  exists r, s, s2. repeat split; try done.
  rewrite <- flat_map_app. cbn [events add_listener] in Hev. rewrite <- Hev.
  apply (inv_sent w2 (Inv_run w1 acts w2 HI1 Hrun) r s2 res Hs2).
  apply Hl; [|done]. simpl. case_decide; [done|].
  apply elem_of_app. right. by apply list_elem_of_singleton.
Qed.

Lemma attach_log_then_live_witness :
  ∃ r s s2,
    sessions demo_running !! "a" = Some r ∧ heap demo_running !! r = Some s ∧
    heap (step (step (get_stream "a" 7 demo_running).1 (OnItem 0 "y"))
            (Settle 0 None)) !! r = Some s2 ∧
    events s2 = events s ++ emitted_on r [OnItem 0 "y"; Settle 0 None] ∧
    sent (get_stream "a" 7 demo_running).1 7 = flat_map frame (events s) ∧
    received (sent (step (step (get_stream "a" 7 demo_running).1
                            (OnItem 0 "y")) (Settle 0 None)) 7) =
      flat_map frame (events s) ++
      flat_map frame (emitted_on r [OnItem 0 "y"; Settle 0 None]).
Proof.
  apply (attach_log_then_live demo_running "a" 7
           [OnItem 0 "y"; Settle 0 None]).
  - exists [PostRun demo_body "a"; OnItem 0 "x"]. vm_compute. reflexivity.
  - vm_compute. reflexivity.
  - vm_compute. reflexivity.
  - vm_compute. reflexivity.
  - intros H. repeat (apply elem_of_cons in H as [H|H]; [discriminate H|]).
    by apply elem_of_nil in H.
Defined.

(** *** The registry *)

Lemma absent_iff_idle w r s :
  Inv w → heap w !! r = Some s → (sessions w !! id s = None ↔ idle s).
Proof.
  intros HI Hs. split.
  - intros Hn. destruct (decide (idle s)) as [|Hi]; [done|].
    assert (sessions w !! id s = Some r) as H
      by (apply (inv_registry w HI); eauto).
    congruence.
  - intros Hi. destruct (sessions w !! id s) as [r'|] eqn:Hk; [|done].
    apply (inv_registry w HI) in Hk as (s' & Hs' & Hid & Hi').
    assert (r' = r) as -> by (by eapply (inv_ids w HI)).
    assert (s' = s) as -> by congruence. done.
Qed.

(** C2. In every reachable state, an identifier is mapped to a session in
    the registry exactly when that session was created and is not both
    completed and without observers; a created session is missing from
    the mapping exactly when it is completed and has no observer; and an
    entry leaves the mapping only in the step that settles the run of its
    session or closes one of its streams, the two places that test the
    condition, and then the session is completed and unobserved. *)
Theorem registry_iff_created_unreclaimed w :
  reachable w →
  (∀ k r, sessions w !! k = Some r ↔
          ∃ s, heap w !! r = Some s ∧ id s = k ∧ ¬ idle s) ∧
  (∀ r s, heap w !! r = Some s → (sessions w !! id s = None ↔ idle s)) ∧
  (∀ a k r,
     enabled w a = true → sessions w !! k = Some r →
     sessions (step w a) !! k = None →
     ((∃ o, a = Settle r o) ∨ (∃ c, a = Close c ∧ streams w !! c = Some r)) ∧
     ∃ s', heap (step w a) !! r = Some s' ∧ idle s').
Proof.
  intros Hw. pose proof (Inv_reachable w Hw) as HI.
  split; [apply (inv_registry w HI)|].
  split; [intros r s; by apply absent_iff_idle|].
  intros a k r Hen Hk Hgone.
  apply (inv_registry w HI) in Hk as (s & Hs & Hid & Hi).
  destruct (step_session w a r s HI Hen Hs)
    as (s' & Hs' & Hid' & _ & _ & _ & Hre).
  assert (idle s') as Hi'.
  { apply (absent_iff_idle (step w a) r s' (Inv_step w a HI Hen) Hs').
    congruence. }
  split; [|eauto].
  destruct (Hre Hi Hi') as [?|(c & -> & Hin)]; [by left|right].
  exists c. split; [done|]. apply (inv_streams w HI). eauto.
Qed.

Lemma registry_iff_created_unreclaimed_witness :
  (∀ k r, sessions demo_running !! k = Some r ↔
          ∃ s, heap demo_running !! r = Some s ∧ id s = k ∧ ¬ idle s) ∧
  (∀ r s, heap demo_running !! r = Some s →
          (sessions demo_running !! id s = None ↔ idle s)) ∧
  (∀ a k r,
     enabled demo_running a = true → sessions demo_running !! k = Some r →
     sessions (step demo_running a) !! k = None →
     ((∃ o, a = Settle r o) ∨
      (∃ c, a = Close c ∧ streams demo_running !! c = Some r)) ∧
     ∃ s', heap (step demo_running a) !! r = Some s' ∧ idle s').
Proof.
  apply (registry_iff_created_unreclaimed demo_running).
  exists [PostRun demo_body "a"; OnItem 0 "x"]. vm_compute. reflexivity.
Defined.

(** *** A run that fails *)

Lemma no_terminal_event t evs :
  t ≠ "item" → t ≠ "status" →
  Forall (λ event, of_type "item" event ∨ of_type "status" event) evs →
  filter (of_type t) evs = [].
Proof.
  intros Hi Hs Hall. induction Hall as [|e evs He _ IH]; [done|].
  rewrite filter_cons_False; [done|].
  unfold of_type in *. intros Ht. destruct He; congruence.
Qed.

(** C5. When the run of a session rejects with an [Error], the step that
    handles it appends one event to the log, of type error and with the
    message of the [Error]; the log then holds that error event and no
    other, and no complete event; every observer is sent its frame; the
    session is completed. From then on the log and the flag stay as they
    are, and in every later state the session is out of the registry
    exactly when it has no observer. *)
Theorem executor_failure_is_terminal w r s message :
  reachable w → is_Some (agents w !! r) → heap w !! r = Some s →
  let w' := settle r (Some (ThrownError message)) w in
  let error := {| type := "error"; data := Some (DataMessage message) |} in
  ∃ s',
    heap w' !! r = Some s' ∧
    events s' = events s ++ [error] ∧
    filter (of_type "error") (events s') = [error] ∧
    filter (of_type "complete") (events s') = [] ∧
    completed s' = true ∧
    (∀ c, c ∈ listeners s → sent w' c = sent w c ++ frame error) ∧
    (listeners s = [] → sessions w' !! id s = None) ∧
    (∀ acts w'', run w' acts = Some w'' →
       ∃ s'', heap w'' !! r = Some s'' ∧ completed s'' = true ∧
              events s'' = events s' ∧
              (sessions w'' !! id s = None ↔ listeners s'' = [])).
Proof.
  intros Hw Hag Hs w' error.
  pose proof (Inv_reachable w Hw) as HI.
  assert (Inv w') as HI' by (by apply Inv_settle).
  assert (emitted (Settle r (Some (ThrownError message))) = Some (r, error))
    as Hev by done.
  destruct (proj1 (inv_agents w HI r) Hag) as (s0 & Hs0 & Hc).
  assert (s0 = s) as -> by congruence.
  pose proof (inv_log w HI r s Hs Hc) as Hlog.
  pose proof (settle_lookup w r s _ error Hs Hev) as Hs'.
  exists (set_completed (push error s)). split; [done|].
  cbn [events set_completed push completed].
  split; [done|]. split.
  { rewrite filter_app, (no_terminal_event "error") by done.
    by rewrite filter_cons_True. }
  split.
  { rewrite filter_app, (no_terminal_event "complete") by done.
    by rewrite filter_cons_False. }
  split; [done|]. split.
  { intros c Hin. unfold w'.
    rewrite (sent_settle w r s _ error Hs Hev c (inv_nodup w HI r s Hs)).
    by rewrite decide_True. }
  split.
  { intros Hl. apply (absent_iff_idle w' r _ HI' Hs'). by split. }
  intros acts w'' Hrun.
  destruct (run_session w' acts w'' r _ HI' Hrun Hs')
    as (s'' & Hs'' & Hid & _ & Hdone & _).
  destruct (Hdone eq_refl) as [Hc'' Hev''].
  exists s''. repeat split; try done.
  - intros Hn. replace (id s) with (id s'') in Hn by done.
    by apply (absent_iff_idle w'' r s'' (Inv_run w' acts w'' HI' Hrun) Hs'') in Hn
      as [_ ?].
  - intros Hl. replace (id s) with (id s'') by done.
    by apply (absent_iff_idle w'' r s'' (Inv_run w' acts w'' HI' Hrun) Hs'').
Qed.

Lemma executor_failure_is_terminal_witness :
  let w' := settle 0 (Some (ThrownError "disk full")) demo_running in
  let error := {| type := "error"; data := Some (DataMessage "disk full") |} in
  ∃ s',
    heap w' !! 0 = Some s' ∧
    events s' =
      [{| type := "item"; data := Some (DataText "x") |}] ++ [error] ∧
    filter (of_type "error") (events s') = [error] ∧
    filter (of_type "complete") (events s') = [] ∧
    completed s' = true ∧
    (∀ c : nat, c ∈ @nil nat →
       sent w' c = sent demo_running c ++ frame error) ∧
    (@nil nat = [] → sessions w' !! "a" = None) ∧
    (∀ acts w'', run w' acts = Some w'' →
       ∃ s'', heap w'' !! 0 = Some s'' ∧ completed s'' = true ∧
              events s'' = events s' ∧
              (sessions w'' !! "a" = None ↔ listeners s'' = [])).
Proof.
  apply (executor_failure_is_terminal demo_running 0
           {| id := "a";
              events := [{| type := "item"; data := Some (DataText "x") |}];
              listeners := []; completed := false |} "disk full").
  - exists [PostRun demo_body "a"; OnItem 0 "x"]. vm_compute. reflexivity.
  - vm_compute. eauto.
  - vm_compute. reflexivity.
Defined.

(** *** Unknown sessions *)

(** C7. A stream request for an identifier that the registry does not
    map, because no session with it was ever created or because every
    such session has been reclaimed, is answered 404 and changes nothing:
    no stream is opened for the response, no listener is added, nothing
    is written. *)
Theorem unknown_session_is_not_found w sid res :
  reachable w →
  sessions w !! sid = None ∨
    (∀ r s, heap w !! r = Some s → id s = sid → idle s) →
  get_stream sid res w = (w, NotFound) ∧
  status NotFound = 404 ∧
  wire (get_stream sid res w).1 !! res = wire w !! res.
Proof.
  intros Hw Hsid. pose proof (Inv_reachable w Hw) as HI.
  assert (sessions w !! sid = None) as Hnone.
  { destruct Hsid as [?|Hall]; [done|].
    destruct (sessions w !! sid) as [r|] eqn:Hk; [|done].
    apply (inv_registry w HI) in Hk as (s & Hs & Hid & Hi).
    by destruct Hi; eapply Hall. }
  unfold get_stream. by rewrite Hnone.
Qed.

Lemma unknown_session_is_not_found_witness :
  get_stream "b" 7 demo_running = (demo_running, NotFound) ∧
  status NotFound = 404 ∧
  wire (get_stream "b" 7 demo_running).1 !! 7 = wire demo_running !! 7.
Proof.
  apply (unknown_session_is_not_found demo_running "b" 7).
  - exists [PostRun demo_body "a"; OnItem 0 "x"]. vm_compute. reflexivity.
  - left. vm_compute. reflexivity.
Defined.

(** *** Reclaiming and detaching twice *)

Lemma filter_absent (res : Conn) (l : list Conn) :
  res ∉ l → filter (λ c, c ≠ res) l = l.
Proof.
  induction l as [|c l IH]; [done|].
  intros [Hne Hl]%not_elem_of_cons.
  rewrite filter_cons_True by done. by rewrite IH.
Qed.

Lemma delete_listener_absent res s :
  res ∉ listeners s → delete_listener res s = s.
Proof.
  intros Hres. destruct s as [i e l c]. unfold delete_listener; simpl in *.
  by rewrite filter_absent.
Qed.

Lemma delete_listener_twice res s :
  delete_listener res (delete_listener res s) = delete_listener res s.
Proof.
  apply delete_listener_absent. simpl.
  rewrite list_elem_of_filter. by intros [? _].
Qed.

Lemma alter_fixed (f : Session → Session) r (h : list Session) s :
  h !! r = Some s → f s = s → alter f r h = h.
Proof.
  intros Hs Hf. apply list_eq. intros i.
  destruct (decide (i = r)) as [->|Hne].
  - by rewrite list_lookup_alter_eq, Hs; simpl; rewrite Hf.
  - by rewrite list_lookup_alter_ne.
Qed.

Lemma with_heap_fixed f w : f (heap w) = heap w → with_heap f w = w.
Proof. intros Hf. destruct w. unfold with_heap; simpl in *. by rewrite Hf. Qed.

Lemma cleanup_twice r w :
  cleanupSessionIfIdle r (cleanupSessionIfIdle r w) = cleanupSessionIfIdle r w.
Proof.
  unfold cleanupSessionIfIdle at 2 3.
  destruct (heap w !! r) as [s|] eqn:Hs.
  - destruct (completed s && (length (listeners s) =? 0)%nat) eqn:Ht.
    + unfold cleanupSessionIfIdle; simpl. rewrite Hs, Ht.
      unfold with_sessions; simpl. by rewrite delete_delete_eq.
    + unfold cleanupSessionIfIdle. by rewrite Hs, Ht.
  - unfold cleanupSessionIfIdle. by rewrite Hs.
Qed.

Lemma cleanup_absent r w s :
  heap w !! r = Some s → sessions w !! id s = None →
  cleanupSessionIfIdle r w = w.
Proof.
  intros Hs Hn. unfold cleanupSessionIfIdle. rewrite Hs.
  destruct (completed s && (length (listeners s) =? 0)%nat); [|done].
  destruct w. unfold with_sessions; simpl in *. by rewrite delete_id.
Qed.

Lemma detach_twice r res w :
  detach r res (detach r res w) = detach r res w.
Proof.
  unfold detach at 1.
  rewrite with_heap_fixed; [apply cleanup_twice|].
  unfold detach.
  destruct (cleanup_same r (with_heap (alter (delete_listener res) r) w))
    as (-> & _).
  simpl. rewrite list_alter_alter_eq. apply list_alter_ext; [|done].
  intros s _. apply delete_listener_twice.
Qed.

(** C8. Reclaiming and detaching are idempotent. Running the reclaim check
    twice is the same as running it once, and on a session whose
    identifier the registry no longer maps it changes nothing. Deleting a
    response that is not among the listeners of a session changes
    nothing; running the body of the close handler a second time changes
    nothing; and in a reachable state, running it for a response that is
    not a listener leaves the session and the registry as they are. *)
Theorem reclaim_and_detach_idempotent :
  (∀ w r, cleanupSessionIfIdle r (cleanupSessionIfIdle r w) =
          cleanupSessionIfIdle r w) ∧
  (∀ w r s, heap w !! r = Some s → sessions w !! id s = None →
            cleanupSessionIfIdle r w = w) ∧
  (∀ w r s res, heap w !! r = Some s → res ∉ listeners s →
                with_heap (alter (delete_listener res) r) w = w) ∧
  (∀ w r res, detach r res (detach r res w) = detach r res w) ∧
  (∀ w r s res, reachable w → heap w !! r = Some s → res ∉ listeners s →
                detach r res w = w).
Proof.
  split; [intros w r; apply cleanup_twice|].
  split; [intros w r s; apply cleanup_absent|].
  assert (∀ w r s res, heap w !! r = Some s → res ∉ listeners s →
            with_heap (alter (delete_listener res) r) w = w) as Hdel.
  { intros w r s res Hs Hres. apply with_heap_fixed.
    apply (alter_fixed _ _ _ s); [done|]. by apply delete_listener_absent. }
  split; [done|]. split; [intros w r res; apply detach_twice|].
  intros w r s res Hw Hs Hres. unfold detach.
  rewrite (Hdel w r s res Hs Hres).
  destruct (decide (idle s)) as [Hi|Hi].
  - apply (cleanup_absent r w s Hs).
    by apply (absent_iff_idle w r s (Inv_reachable w Hw) Hs).
  - unfold cleanupSessionIfIdle. rewrite Hs.
    destruct (completed s && (length (listeners s) =? 0)%nat) eqn:Ht; [|done].
    by apply idle_test in Ht.
Qed.

Lemma reclaim_and_detach_idempotent_witness :
  detach 0 7 (detach 0 7 demo_running) = detach 0 7 demo_running ∧
  detach 0 7 demo_running = demo_running.
Proof.
  destruct reclaim_and_detach_idempotent as (_ & _ & _ & Htwice & Habsent).
  split; [apply Htwice|].
  apply (Habsent demo_running 0
           {| id := "a";
              events := [{| type := "item"; data := Some (DataText "x") |}];
              listeners := []; completed := false |} 7).
  - exists [PostRun demo_body "a"; OnItem 0 "x"]. vm_compute. reflexivity.
  - vm_compute. reflexivity.
  - apply not_elem_of_nil.
Defined.

(** *** One framing for replay and live delivery *)

(** C10. Replay and live delivery write the same bytes for an event. What
    [writeEvent] writes is the frame of the event: the event line, the
    data line when the event has data and only then, and the blank line.
    Emitting an event on a session appends that frame to what every
    listener was sent, and a stream that attaches is sent the frame of
    every event of the log, in log order. *)
Theorem replay_frames_like_live w r s :
  reachable w → heap w !! r = Some s →
  (∀ res event w0,
     sent (writeEvent res event w0) res = sent w0 res ++ frame event) ∧
  (∀ event c, c ∈ listeners s →
     sent (emit r event w) c = sent w c ++ frame event) ∧
  (∀ res, sessions w !! id s = Some r →
     sent (get_stream (id s) res w).1 res = flat_map frame (events s)) ∧
  (∀ event,
     frame event =
     match data event with
     | Some d => ["event: " +:+ type event +:+ nl;
                  "data: " +:+ JSON_stringify d +:+ nl; nl]
     | None => ["event: " +:+ type event +:+ nl; nl]
     end).
Proof.
  intros Hw Hs. pose proof (Inv_reachable w Hw) as HI.
  split.
  { intros res event w0. rewrite sent_writeEvent. by rewrite decide_True. }
  split.
  { intros event c Hin.
    rewrite (sent_emit w r s event Hs c (inv_nodup w HI r s Hs)).
    by rewrite decide_True. }
  split.
  { intros res Hk. rewrite (sent_get_stream w (id s) res r s Hk Hs).
    by rewrite decide_True. }
  intros event. unfold frame. by destruct (data event).
Qed.

Lemma replay_frames_like_live_witness :
  let w := step demo_running (GetStream "a" 7) in
  let item := {| type := "item"; data := Some (DataText "x") |} in
  sent (emit 0 item w) 7 = sent w 7 ++ frame item ∧
  sent (get_stream "a" 8 w).1 8 = frame item ++ [].
Proof.
  intros w item.
  destruct (replay_frames_like_live w 0
              {| id := "a"; events := [item]; listeners := [7];
                 completed := false |})
    as (_ & Hlive & Hreplay & _).
  - exists [PostRun demo_body "a"; OnItem 0 "x"; GetStream "a" 7].
    vm_compute. reflexivity.
  - vm_compute. reflexivity.
  - split.
    + apply Hlive. apply elem_of_cons. by left.
    + apply Hreplay. vm_compute. reflexivity.
Defined.

End WebFacts.

(** ** Properties of the single-flight front end *)

Module SingleFlightFacts.
Import JS SingleFlight.

(** *** The process *)

Lemma enabled_ready w a :
  enabled w a = true → unhandled w = [] ∧ ready w a = true.
Proof. unfold enabled. by destruct (unhandled w). Qed.

(** *** The outstanding run *)

Lemma tracks_init sandbox : tracks_outstanding (init sandbox).
Proof.
  intros req. simpl. rewrite lookup_empty. split; [by intros [? ?]|done].
Qed.

Lemma tracks_step w a : tracks_outstanding w → enabled w a = true → tracks_outstanding (step w a).1.
Proof.
  intros HI Hen.
  destruct a as [req body now|req item|req payload|req rid|req outcome now];
    apply enabled_ready in Hen as [Hlive Hen]; simpl in Hen;
    apply bool_decide_eq_true in Hen; cbn [step fst].
  - unfold post_run. destruct (activeRun w) as [r|] eqn:Hact; [done|].
    destruct (String.eqb (prompt_text (get body "prompt")) ""); [done|].
    intros req'. simpl. destruct (decide (req' = req)) as [->|Hne].
    + rewrite lookup_insert_eq. split; eauto.
    + rewrite lookup_insert_ne by done. rewrite (HI req'), Hact.
      split; [done|]. by intros [= ->].
  - intros req'. simpl. rewrite lookup_alter. rewrite <- (HI req').
    case_decide; [subst; by rewrite fmap_is_Some | done].
  - intros req'. simpl. rewrite lookup_alter. rewrite <- (HI req').
    case_decide; [subst; by rewrite fmap_is_Some | done].
  - intros req'. simpl. rewrite lookup_alter. rewrite <- (HI req').
    case_decide; [subst; by rewrite fmap_is_Some | done].
  - unfold settle. destruct (pending w !! req) as [l|] eqn:Hl; [|done].
    intros req'. simpl. split; [|done].
    destruct (decide (req' = req)) as [->|Hne].
    + rewrite lookup_delete_eq. by intros [? ?].
    + rewrite lookup_delete_ne by done. intros Hreq'%HI.
      assert (activeRun w = Some req) as Hreq by (apply HI; eauto).
      congruence.
Qed.

Lemma tracks_run w acts w' : tracks_outstanding w → run w acts = Some w' → tracks_outstanding w'.
Proof.
  revert w. induction acts as [|a acts IH]; intros w HI Hrun; simpl in Hrun.
  - by simplify_eq.
  - destruct (enabled w a) eqn:Hen; [|done].
    eapply IH; [|done]. by apply tracks_step.
Qed.

Lemma tracks_reachable sandbox w : reachable sandbox w → tracks_outstanding w.
Proof. intros [acts Hrun]. eapply tracks_run; [apply tracks_init | done]. Qed.

Lemma settled_none_pending w r outcome now :
  tracks_outstanding w → is_Some (pending w !! r) →
  pending (settle r outcome now w).1 = ∅.
Proof.
  intros HI [l Hl]. unfold settle. rewrite Hl. simpl.
  apply map_empty. intros req.
  destruct (decide (req = r)) as [->|Hne]; [apply lookup_delete_eq|].
  rewrite lookup_delete_ne by done.
  destruct (pending w !! req) eqn:Hreq; [|done].
  assert (activeRun w = Some req) by (apply HI; eauto).
  assert (activeRun w = Some r) by (apply HI; eauto).
  congruence.
Qed.

Lemma alive_kept w acts w' :
  tracks_outstanding w → unhandled w = [] ∨ pending w = ∅ →
  run w acts = Some w' → unhandled w' = [] ∨ pending w' = ∅.
Proof.
  revert w. induction acts as [|a acts IH]; intros w HI Hw Hrun;
    simpl in Hrun; [by simplify_eq|].
  destruct (enabled w a) eqn:Hen; [|done].
  apply (IH (step w a).1 (tracks_step w a HI Hen)); [|done].
  pose proof Hen as Hen'.
  destruct a as [req body now|req item|req payload|req rid|req outcome now];
    apply enabled_ready in Hen as [Hlive Hen]; simpl in Hen;
    apply bool_decide_eq_true in Hen; cbn [step fst]; try by left.
  - left. unfold post_run. destruct (activeRun w); [done|].
    by destruct (String.eqb _ _).
  - right. by apply settled_none_pending.
Qed.

(** As long as an invocation waits for its run, the process lives. *)
Lemma alive_while_pending sandbox w r :
  reachable sandbox w → is_Some (pending w !! r) → unhandled w = [].
Proof.
  intros [acts Hrun] [l Hl].
  destruct (alive_kept (init sandbox) acts w (tracks_init sandbox)) as [?|He];
    [by left|done|done|].
  by rewrite He, lookup_empty in Hl.
Qed.

(** C3, at the run that fails. While a run is outstanding, a start
    request is answered 409 and leaves the server as it is, so no agent
    run is created. When the run resolves, no run is outstanding, the
    process lives, and the next start request is never answered 409: with
    a prompt it creates one agent run, takes [activeRun] and waits. When
    the run throws, the invocation replies 500 and [activeRun] is cleared
    as well, but the promise that [activeRun] held has rejected with no
    handler: the process ends, and no start request is served after
    it. *)
Theorem admission_until_a_run_fails sandbox w r l :
  reachable sandbox w → pending w !! r = Some l →
  (∀ req body now, post_run req body now w = (w, Some conflict)) ∧
  status conflict = 409 ∧
  (∀ now,
     let w' := (settle r None now w).1 in
     enabled w (Settle r None now) = true ∧
     pending w' = ∅ ∧ unhandled w' = [] ∧
     ∀ req body now',
       (post_run req body now' w').2 ≠ Some conflict ∧
       (prompt_text (get body "prompt") ≠ "" →
        (post_run req body now' w').2 = None ∧
        activeRun (post_run req body now' w').1 = Some req ∧
        is_Some (pending (post_run req body now' w').1 !! req) ∧
        invocations (post_run req body now' w').1 =
          invocations w' ++
          [(req, prompt_text (get body "prompt"),
            string_elems (get body "images"))])) ∧
  (∀ error now,
     let w' := (settle r (Some error) now w).1 in
     enabled w (Settle r (Some error) now) = true ∧
     (settle r (Some error) now w).2 = Some (reply_of w l (Some error) now) ∧
     status (reply_of w l (Some error) now) = 500 ∧
     activeRun w' = None ∧ pending w' = ∅ ∧
     unhandled w' = [error] ∧
     ∀ a, enabled w' a = false).
Proof.
  intros Hw Hl. pose proof (tracks_reachable sandbox w Hw) as HI.
  assert (unhandled w = []) as Hlive
    by (apply (alive_while_pending sandbox w r); eauto).
  assert (∀ outcome now, enabled w (Settle r outcome now) = true) as Hen.
  { intros outcome now. unfold enabled. rewrite Hlive. simpl.
    apply bool_decide_eq_true. eauto. }
  split.
  { intros req body now. assert (activeRun w = Some r) as Hact
      by (apply HI; eauto).
    unfold post_run. by rewrite Hact. }
  split; [done|]. split.
  - intros now w'. split; [done|]. split.
    { apply settled_none_pending; eauto. }
    assert (activeRun w' = None ∧ unhandled w' = []) as [Hact Hlive'].
    { unfold w', settle. rewrite Hl. by simpl. }
    split; [done|].
    intros req body now'. unfold post_run. rewrite Hact.
    destruct (String.eqb (prompt_text (get body "prompt")) "") eqn:Hp.
    + split; [done|]. intros Hne. by apply String.eqb_eq in Hp.
    + split; [done|]. intros _. simpl. rewrite lookup_insert_eq. eauto.
  - intros error now w'. split; [done|].
    split; [unfold settle; by rewrite Hl|]. split; [done|].
    split; [unfold w', settle; by rewrite Hl|]. split.
    { apply settled_none_pending; eauto. }
    assert (unhandled w' = [error]) as Hdead.
    { unfold w', settle. rewrite Hl. simpl. by rewrite Hlive. }
    split; [done|]. intros a. unfold enabled. by rewrite Hdead.
Qed.

Lemma admission_until_a_run_fails_witness :
  let l := {| results := [JsString "x"];
              loadingStates := [loading_state true];
              lastResponseId := JsUndefined; startedAt := 100;
              fullStdout := JsUndefined |} in
  (∀ req body now,
     post_run req body now demo_busy = (demo_busy, Some conflict)) ∧
  status conflict = 409 ∧
  (∀ now,
     let w' := (settle 0 None now demo_busy).1 in
     enabled demo_busy (Settle 0 None now) = true ∧
     pending w' = ∅ ∧ unhandled w' = [] ∧
     ∀ req body now',
       (post_run req body now' w').2 ≠ Some conflict ∧
       (prompt_text (get body "prompt") ≠ "" →
        (post_run req body now' w').2 = None ∧
        activeRun (post_run req body now' w').1 = Some req ∧
        is_Some (pending (post_run req body now' w').1 !! req) ∧
        invocations (post_run req body now' w').1 =
          invocations w' ++
          [(req, prompt_text (get body "prompt"),
            string_elems (get body "images"))])) ∧
  (∀ error now,
     let w' := (settle 0 (Some error) now demo_busy).1 in
     enabled demo_busy (Settle 0 (Some error) now) = true ∧
     (settle 0 (Some error) now demo_busy).2 =
       Some (reply_of demo_busy l (Some error) now) ∧
     status (reply_of demo_busy l (Some error) now) = 500 ∧
     activeRun w' = None ∧ pending w' = ∅ ∧
     unhandled w' = [error] ∧
     ∀ a, enabled w' a = false).
Proof.
  intros l. apply (admission_until_a_run_fails JsNull demo_busy 0 l).
  - exists [Post 0 demo_request 100; OnItem 0 (JsString "x"); OnLoading 0 true].
    vm_compute. reflexivity.
  - vm_compute. reflexivity.
Defined.

(** The run of the request [build project] throws [disk full]: the reply
    is the 500, and from the state it leaves no start request is served,
    with a prompt or without. *)
Lemma no_request_after_a_failed_run :
  let w' := (settle 0 (Some (ThrownError "disk full")) 160 demo_busy).1 in
  run (init JsNull)
    [Post 0 demo_request 100; OnItem 0 (JsString "x"); OnLoading 0 true;
     Settle 0 (Some (ThrownError "disk full")) 160] = Some w' ∧
  unhandled w' = [ThrownError "disk full"] ∧
  enabled w' (Post 1 demo_request 200) = false ∧
  run w' [Post 1 demo_request 200] = None.
Proof. by vm_compute. Qed.

(** *** The reply of a run *)

(** C4, as the code has it. The invocation whose run settles replies from
    its own variables. When the run resolved the status is 200 and the
    body holds the buffered items, the loading states, the last response
    id, the duration, the sandbox status and the [fullStdout] flag. When
    it threw the status is 500 and the body holds the error message, the
    buffered items, the duration and the sandbox status, and neither the
    loading states nor the last response id. *)
Theorem reply_shapes w req l outcome now :
  pending w !! req = Some l →
  ∃ reply,
    (settle req outcome now w).2 = Some reply ∧
    match outcome with
    | None =>
        status reply = 200 ∧
        body reply =
          [("items", JsArray (results l));
           ("loading", JsArray (loadingStates l));
           ("lastResponseId", lastResponseId l);
           ("durationMs", JsNumber (now - startedAt l));
           ("sandbox", sandboxStatus w);
           ("fullStdout", JsBool (truthy (fullStdout l)))]
    | Some error =>
        status reply = 500 ∧
        body reply =
          [("error", JsString match error with
                              | ThrownError message => message
                              | ThrownValue as_string => as_string
                              end);
           ("items", JsArray (results l));
           ("durationMs", JsNumber (now - startedAt l));
           ("sandbox", sandboxStatus w)] ∧
        ("loading" ∉ keys (body reply)) ∧
        ("lastResponseId" ∉ keys (body reply))
    end.
Proof.
  intros Hl. unfold settle. rewrite Hl. eexists. split; [done|].
  destruct outcome as [error|]; [|done].
  repeat split; simpl; intros H;
    repeat (apply elem_of_cons in H as [H|H]; [discriminate H|]);
    by apply elem_of_nil in H.
Qed.

Lemma reply_shapes_witness :
  ∃ reply,
    (settle 0 None 160 demo_busy).2 = Some reply ∧
    status reply = 200 ∧
    body reply =
      [("items", JsArray [JsString "x"]);
       ("loading", JsArray [loading_state true]);
       ("lastResponseId", JsUndefined);
       ("durationMs", JsNumber (160 - 100));
       ("sandbox", sandboxStatus demo_busy);
       ("fullStdout", JsBool (truthy JsUndefined))].
Proof.
  apply (reply_shapes demo_busy 0
           {| results := [JsString "x"];
              loadingStates := [loading_state true];
              lastResponseId := JsUndefined; startedAt := 100;
              fullStdout := JsUndefined |} None 160).
  vm_compute. reflexivity.
Defined.

(** Against C4 as stated. The failure reply of a run that had reported a
    loading state: the body has four keys, and the loading states and the last response id
    are not among them. *)
Lemma failure_reply_lacks_loading :
  ∃ reply,
    (settle 0 (Some (ThrownError "disk full")) 160 demo_busy).2 = Some reply ∧
    keys (body reply) = ["error"; "items"; "durationMs"; "sandbox"] ∧
    assoc "loading" (body reply) = JsUndefined ∧
    assoc "lastResponseId" (body reply) = JsUndefined.
Proof. eexists. split; [vm_compute; reflexivity|]. by vm_compute. Qed.

(** *** Buffers *)

Lemma items_of_cons req a acts :
  items_of req (a :: acts) = items_of req [a] ++ items_of req acts.
Proof.
  unfold items_of. simpl.
  destruct a as [| r item | | |]; try done. by destruct (decide (r = req)).
Qed.

Lemma loading_of_cons req a acts :
  loading_of req (a :: acts) = loading_of req [a] ++ loading_of req acts.
Proof.
  unfold loading_of. simpl.
  destruct a as [| | r payload | |]; try done. by destruct (decide (r = req)).
Qed.

(** An invocation that has settled does not come back. *)
Lemma settled_stays_settled w acts w' req :
  run w acts = Some w' → pending w !! req = None → req ∈ invoked w →
  pending w' !! req = None.
Proof.
  revert w. induction acts as [|a acts IH]; intros w Hrun Hnone Hadm;
    simpl in Hrun; [by simplify_eq|].
  destruct (enabled w a) eqn:Hen; [|done].
  apply (IH _ Hrun).
  - destruct a as [r body now|r item|r payload|r rid|r outcome now];
      apply enabled_ready in Hen as [Hlive Hen]; simpl in Hen;
    apply bool_decide_eq_true in Hen; cbn [step fst].
    + unfold post_run. destruct (activeRun w); [done|].
      destruct (String.eqb _ _); [done|]. simpl.
      rewrite lookup_insert_ne; [done|]. by intros ->.
    + simpl. rewrite lookup_alter. case_decide; [subst; by rewrite Hnone|done].
    + simpl. rewrite lookup_alter. case_decide; [subst; by rewrite Hnone|done].
    + simpl. rewrite lookup_alter. case_decide; [subst; by rewrite Hnone|done].
    + unfold settle. destruct (pending w !! r); [|done]. simpl.
      by apply lookup_delete_None; right.
  - destruct a as [r body now|r item|r payload|r rid|r outcome now];
      cbn [step fst]; try done.
    + unfold post_run. destruct (activeRun w); [done|].
      destruct (String.eqb _ _); [done|]. unfold invoked in *. simpl.
      rewrite fmap_app. apply elem_of_app. by left.
    + unfold settle. by destruct (pending w !! r).
Qed.

(** While an invocation waits, its buffers grow by what its own agent
    reports, and by nothing else. *)
Lemma buffers_grow w acts w' req l0 l :
  run w acts = Some w' → pending w !! req = Some l0 → req ∈ invoked w →
  pending w' !! req = Some l →
  results l = results l0 ++ items_of req acts ∧
  loadingStates l = loadingStates l0 ++ loading_of req acts.
Proof.
  revert w l0. induction acts as [|a acts IH]; intros w l0 Hrun Hl0 Hadm Hl;
    simpl in Hrun.
  { simplify_eq. by rewrite !app_nil_r. }
  destruct (enabled w a) eqn:Hen; [|done].
  rewrite items_of_cons, loading_of_cons, !app_assoc.
  destruct a as [r body now|r item|r payload|r rid|r outcome now];
    apply enabled_ready in Hen as [Hlive Hen]; simpl in Hen;
    apply bool_decide_eq_true in Hen; cbn [step fst] in Hrun.
  - rewrite !app_nil_r. unfold post_run in Hrun.
    destruct (activeRun w); [by eapply (IH _ l0)|].
    destruct (String.eqb _ _); [by eapply (IH _ l0)|].
    eapply (IH _ l0); [done| | |done].
    + simpl. rewrite lookup_insert_ne; [done|]. by intros ->.
    + unfold invoked in *. simpl. rewrite fmap_app. apply elem_of_app. by left.
  - unfold items_of at 1, loading_of at 1. simpl.
    destruct (decide (r = req)) as [->|Hne].
    + rewrite app_nil_r.
      eapply (IH _ {| results := results l0 ++ [item];
                      loadingStates := loadingStates l0;
                      lastResponseId := lastResponseId l0;
                      startedAt := startedAt l0;
                      fullStdout := fullStdout l0 |} Hrun); [|done|done].
      simpl. by rewrite lookup_alter_eq, Hl0.
    + rewrite !app_nil_r. eapply (IH _ l0 Hrun); [|done|done].
      simpl. by rewrite lookup_alter_ne.
  - unfold items_of at 1, loading_of at 1. simpl.
    destruct (decide (r = req)) as [->|Hne].
    + rewrite app_nil_r.
      eapply (IH _ {| results := results l0;
                      loadingStates := loadingStates l0 ++ [loading_state payload];
                      lastResponseId := lastResponseId l0;
                      startedAt := startedAt l0;
                      fullStdout := fullStdout l0 |} Hrun); [|done|done].
      simpl. by rewrite lookup_alter_eq, Hl0.
    + rewrite !app_nil_r. eapply (IH _ l0 Hrun); [|done|done].
      simpl. by rewrite lookup_alter_ne.
  - rewrite !app_nil_r.
    destruct (decide (r = req)) as [->|Hne].
    + eapply (IH _ {| results := results l0; loadingStates := loadingStates l0;
                      lastResponseId := JsString rid; startedAt := startedAt l0;
                      fullStdout := fullStdout l0 |} Hrun); [|done|done].
      simpl. by rewrite lookup_alter_eq, Hl0.
    + eapply (IH _ l0 Hrun); [|done|done].
      simpl. by rewrite lookup_alter_ne.
  - rewrite !app_nil_r. unfold settle in Hrun.
    destruct (pending w !! r) as [lr|] eqn:Hr; [|by eapply (IH _ l0)].
    simpl in Hrun. destruct (decide (r = req)) as [->|Hne].
    + assert (pending w' !! req = None); [|congruence].
      eapply settled_stays_settled; [done| |done]. simpl.
      apply lookup_delete_eq.
    + eapply (IH _ l0 Hrun); [|done|done].
      simpl. by rewrite lookup_delete_ne.
Qed.

(** From before its admission on, the buffers of an invocation hold what
    its own agent reported, in callback order. *)
Lemma buffers_from_admission w acts w' req l :
  run w acts = Some w' → pending w !! req = None → req ∉ invoked w →
  pending w' !! req = Some l →
  results l = items_of req acts ∧ loadingStates l = loading_of req acts.
Proof.
  revert w. induction acts as [|a acts IH]; intros w Hrun Hnone Hnew Hl;
    simpl in Hrun; [by simplify_eq|].
  destruct (enabled w a) eqn:Hen; [|done].
  rewrite items_of_cons, loading_of_cons.
  assert (∀ r, is_Some (pending w !! r) → r ≠ req) as Hother.
  { intros r [? Hr] ->. congruence. }
  destruct a as [r body now|r item|r payload|r rid|r outcome now];
    apply enabled_ready in Hen as [Hlive Hen]; simpl in Hen;
    apply bool_decide_eq_true in Hen; cbn [step fst] in Hrun.
  - unfold items_of at 1, loading_of at 1. cbn [omap list_omap app].
    unfold post_run in Hrun.
    destruct (activeRun w); [by eapply IH|].
    destruct (String.eqb _ _); [by eapply IH|].
    destruct (decide (r = req)) as [->|Hne].
    + simpl in Hrun.
      apply (buffers_grow _ acts w' req
               {| results := []; loadingStates := [];
                  lastResponseId := JsUndefined; startedAt := now;
                  fullStdout := get body "fullStdout" |} l) in Hrun;
        [exact Hrun | simpl; apply lookup_insert_eq | | done].
      unfold invoked. simpl. rewrite fmap_app. apply elem_of_app. right.
      by apply list_elem_of_singleton.
    + eapply (IH _ Hrun); [| |done].
      * simpl. by rewrite lookup_insert_ne.
      * unfold invoked in *. simpl. rewrite fmap_app.
        intros [?|Hin%list_elem_of_singleton]%elem_of_app; [done|].
        simpl in Hin. congruence.
  - unfold items_of at 1, loading_of at 1. simpl.
    rewrite decide_False by (by apply Hother). simpl.
    eapply (IH _ Hrun); [|done|done]. simpl.
    rewrite lookup_alter_ne; [done|by apply Hother].
  - unfold items_of at 1, loading_of at 1. simpl.
    rewrite decide_False by (by apply Hother). simpl.
    eapply (IH _ Hrun); [|done|done]. simpl.
    rewrite lookup_alter_ne; [done|by apply Hother].
  - unfold items_of at 1, loading_of at 1. simpl.
    eapply (IH _ Hrun); [|done|done]. simpl.
    rewrite lookup_alter_ne; [done|by apply Hother].
  - unfold items_of at 1, loading_of at 1. simpl.
    unfold settle in Hrun. destruct (pending w !! r) eqn:Hr; [|by eapply IH].
    eapply (IH _ Hrun); [|done|done]. simpl.
    by apply lookup_delete_None; right.
Qed.

(** Against C9 as stated. A second run that reported a loading state and
    then threw: the reply carries its item, and no loading transition at
    all. *)
Lemma failed_run_reply_drops_loading :
  let first := [Post 0 demo_request 100; OnItem 0 (JsString "x");
                OnLoading 0 true; Settle 0 None 160] in
  let second := [Post 1 demo_request 200; OnLoading 1 false;
                 OnItem 1 (JsString "y")] in
  ∃ w reply,
    run (init JsNull) (first ++ second) = Some w ∧
    loading_of 1 (first ++ second) = [loading_state false] ∧
    (settle 1 (Some (ThrownError "disk full")) 260 w).2 = Some reply ∧
    assoc "items" (body reply) = JsArray [JsString "y"] ∧
    keys (body reply) = ["error"; "items"; "durationMs"; "sandbox"] ∧
    assoc "loading" (body reply) = JsUndefined.
Proof.
  intros first second. eexists _, _.
  split; [vm_compute; reflexivity|]. by vm_compute.
Qed.

(** C9, as the code has it. The buffers belong to the invocation. Along
    every run of the server, however many runs came before, the variables
    of an invocation that waits hold the items and the loading states that
    its own agent has reported, in callback order, and nothing from
    another run. The reply it gives when its run settles carries exactly
    those items; when the run resolved it carries exactly those loading
    states too, and when the run threw it carries no loading state. *)
Theorem buffers_are_per_request sandbox acts w req l outcome now :
  run (init sandbox) acts = Some w →
  pending w !! req = Some l →
  results l = items_of req acts ∧
  loadingStates l = loading_of req acts ∧
  ∃ reply,
    (settle req outcome now w).2 = Some reply ∧
    assoc "items" (body reply) = JsArray (items_of req acts) ∧
    match outcome with
    | None => assoc "loading" (body reply) = JsArray (loading_of req acts)
    | Some _ =>
        ("loading" ∉ keys (body reply)) ∧
        assoc "loading" (body reply) = JsUndefined
    end.
Proof.
  intros Hrun Hl.
  destruct (buffers_from_admission (init sandbox) acts w req l Hrun)
    as [Hitems Hloading]; [done|apply not_elem_of_nil|done|].
  split; [done|]. split; [done|].
  unfold settle. rewrite Hl. eexists. split; [done|].
  destruct outcome as [error|]; simpl.
  - rewrite Hitems. repeat split. intros H.
    repeat (apply elem_of_cons in H as [H|H]; [discriminate H|]).
    by apply elem_of_nil in H.
  - by rewrite Hitems, Hloading.
Qed.

Lemma buffers_are_per_request_witness :
  let first := [Post 0 demo_request 100; OnItem 0 (JsString "x");
                OnLoading 0 true; Settle 0 None 160] in
  let second := [Post 1 demo_request 200; OnLoading 1 false;
                 OnItem 1 (JsString "y")] in
  ∃ w reply,
    run (init JsNull) (first ++ second) = Some w ∧
    (settle 1 None 260 w).2 = Some reply ∧
    assoc "items" (body reply) = JsArray [JsString "y"] ∧
    assoc "loading" (body reply) = JsArray [loading_state false].
Proof.
  intros first second.
  destruct (buffers_are_per_request JsNull (first ++ second)
              (default (init JsNull) (run (init JsNull) (first ++ second))) 1
              {| results := [JsString "y"];
                 loadingStates := [loading_state false];
                 lastResponseId := JsUndefined; startedAt := 200;
                 fullStdout := JsUndefined |} None 260)
    as (_ & _ & reply & Hreply & Hitems & Hloading).
  - vm_compute. reflexivity.
  - vm_compute. reflexivity.
  - eexists _, reply. split; [vm_compute; reflexivity|].
    split; [exact Hreply|]. split; [exact Hitems|]. exact Hloading.
Defined.

(** *** Validation, in both front ends *)

(** Against C6 as stated. A start request without a prompt, sent while a
    run is outstanding, is answered 409, not 400: the single-flight handler tests [activeRun]
    before it looks at the prompt. *)
Lemma invalid_prompt_on_busy_server_gets_conflict :
  prompt_text (get (JsObject []) "prompt") = "" ∧
  post_run 1 (JsObject []) 150 demo_busy = (demo_busy, Some conflict) ∧
  status conflict = 409 ∧
  conflict ≠ bad_request.
Proof. repeat split; try (vm_compute; reflexivity). by intros [=]. Qed.

(** C6, as the code has it. A start request whose prompt is missing, is
    not a string, or is empty once trimmed is rejected with the server
    left as it is: no session is created, no identifier is used, no agent
    run is created. The multi-session front end answers 400. So does the
    single-flight front end when no run is outstanding; while one is
    outstanding it answers 409, as it does for every start request. *)
Theorem invalid_prompt_is_rejected_early body :
  match get body "prompt" with
  | JsString s => trim s = ""
  | _ => True
  end →
  (∀ uuid w,
     Web.post_run body uuid w = (w, Web.BadRequest "Prompt is required")) ∧
  Web.status (Web.BadRequest "Prompt is required") = 400 ∧
  (∀ req now w,
     post_run req body now w =
     (w, Some (match activeRun w with
               | Some _ => conflict
               | None => bad_request
               end))) ∧
  status bad_request = 400.
Proof.
  intros Hbody.
  assert (prompt_text (get body "prompt") = "") as Hp.
  { unfold prompt_text. by destruct (get body "prompt"). }
  split; [|split; [done|split; [|done]]].
  - intros uuid w. unfold Web.post_run. by rewrite Hp.
  - intros req now w. unfold post_run. rewrite Hp.
    by destruct (activeRun w).
Qed.

Lemma invalid_prompt_is_rejected_early_witness :
  let body := JsObject [("prompt", JsString "  ")] in
  (∀ uuid w,
     Web.post_run body uuid w = (w, Web.BadRequest "Prompt is required")) ∧
  Web.status (Web.BadRequest "Prompt is required") = 400 ∧
  (∀ req now w,
     post_run req body now w =
     (w, Some (match activeRun w with
               | Some _ => conflict
               | None => bad_request
               end))) ∧
  status bad_request = 400.
Proof.
  intros body. apply (invalid_prompt_is_rejected_early body).
  vm_compute. reflexivity.
Defined.

End SingleFlightFacts.

(** ** More properties of the multi-session front end *)

Module WebMore.
Import JS Web Lifecycle WebFacts.

(** *** Steps, seen from the agents and from the heap *)

Lemma step_agents w a :
  Inv w → enabled w a = true →
  agents (step w a) =
  match a with
  | PostRun body uuid =>
      if String.eqb (prompt_text (get body "prompt")) "" then agents w
      else <[length (heap w) := prompt_text (get body "prompt")]> (agents w)
  | Settle r _ => delete r (agents w)
  | _ => agents w
  end.
Proof.
  intros HI Hen.
  destruct a as [body uuid|sid res|res|res|r text|r b|r o];
    simpl in Hen; apply bool_decide_eq_true in Hen; cbn [step].
  - unfold post_run. by destruct (String.eqb _ _).
  - destruct (sessions w !! sid) as [r|] eqn:Hsid.
    + by destruct (get_stream_rest w sid res r Hsid) as (_ & -> & _).
    + unfold get_stream. by rewrite Hsid.
  - done.
  - destruct Hen as [r Hres].
    by destruct (on_close_rest w res r Hres) as (_ & -> & _).
  - destruct (proj1 (inv_agents w HI r) Hen) as (s & Hs & _). unfold onItem.
    by destruct (emit_rest w r s {| type := "item";
                                    data := Some (DataText text) |} Hs)
      as (_ & -> & _).
  - destruct (proj1 (inv_agents w HI r) Hen) as (s & Hs & _). unfold onLoading.
    by destruct (emit_rest w r s {| type := "status";
                                    data := Some (DataLoading b) |} Hs)
      as (_ & -> & _).
  - destruct (proj1 (inv_agents w HI r) Hen) as (s & Hs & _).
    destruct (emitted_settle r o) as (event & Hev).
    apply (settle_agents w r s o event Hs Hev).
Qed.

Lemma step_heap_back w a r s' :
  Inv w → enabled w a = true → heap (step w a) !! r = Some s' →
  (∃ s, heap w !! r = Some s) ∨ (events s' = [] ∧ completed s' = false).
Proof.
  intros HI Hen.
  destruct a as [body uuid|sid res|res|res|r1 text|r1 b|r1 o];
    simpl in Hen; apply bool_decide_eq_true in Hen; cbn [step].
  - unfold post_run. destruct (String.eqb _ _); [eauto|].
    simpl. intros [?|[_ ->]]%lookup_snoc_iff; [eauto|by right].
  - destruct (sessions w !! sid) as [r1|] eqn:Hsid.
    + rewrite (get_stream_heap w sid res r1 Hsid).
      intros (s & Hs & _)%lookup_alter_inv. eauto.
    + unfold get_stream. rewrite Hsid. eauto.
  - eauto.
  - destruct Hen as [r1 Hres]. rewrite (on_close_heap w res r1 Hres).
    intros (s & Hs & _)%lookup_alter_inv. eauto.
  - destruct (proj1 (inv_agents w HI r1) Hen) as (s1 & Hs1 & _).
    unfold onItem. rewrite (emit_heap w r1 s1 _ Hs1).
    intros (s & Hs & _)%lookup_alter_inv. eauto.
  - destruct (proj1 (inv_agents w HI r1) Hen) as (s1 & Hs1 & _).
    unfold onLoading. rewrite (emit_heap w r1 s1 _ Hs1).
    intros (s & Hs & _)%lookup_alter_inv. eauto.
  - destruct (proj1 (inv_agents w HI r1) Hen) as (s1 & Hs1 & _).
    destruct (emitted_settle r1 o) as (event & Hev).
    rewrite (settle_heap w r1 s1 o event Hs1 Hev).
    intros (s & Hs & _)%lookup_alter_inv.
    apply lookup_alter_inv in Hs as (s0 & Hs0 & _). eauto.
Qed.

(** *** The log *)

(** One call, whatever it is and whenever it comes, seen from a session
    object. *)
Lemma call_session w a r s :
  heap w !! r = Some s →
  ∃ s', heap (step w a) !! r = Some s' ∧
    id s' = id s ∧
    events s' = events s ++ emitted_on r [a] ∧
    (completed s = true → completed s' = true).
Proof.
  intros Hs.
  destruct a as [body uuid|sid res|res|res|r1 text|r1 b|r1 o]; cbn [step].
  - exists s. rewrite app_nil_r. repeat split; try done.
    unfold post_run.
    destruct (String.eqb (prompt_text (get body "prompt")) ""); [done|].
    simpl. by apply lookup_app_l_Some.
  - destruct (sessions w !! sid) as [r1|] eqn:Hsid.
    + rewrite (get_stream_heap w sid res r1 Hsid).
      exists (if decide (r = r1) then add_listener res s else s).
      split; [apply lookup_alter_iff; eauto|].
      rewrite app_nil_r. by case_decide.
    + exists s. rewrite app_nil_r. unfold get_stream. by rewrite Hsid.
  - exists s. rewrite app_nil_r. by repeat split.
  - destruct (streams w !! res) as [r1|] eqn:Hres.
    + rewrite (on_close_heap w res r1 Hres).
      exists (if decide (r = r1) then delete_listener res s else s).
      split; [apply lookup_alter_iff; eauto|].
      rewrite app_nil_r. by case_decide.
    + exists s. rewrite app_nil_r. unfold on_close. by rewrite Hres.
  - rewrite emitted_on_single; cbn [emitted]. unfold onItem.
    destruct (heap w !! r1) as [s1|] eqn:Hs1.
    + rewrite (emit_heap w r1 s1 _ Hs1).
      eexists. split; [apply lookup_alter_iff; eauto|].
      destruct (decide (r = r1)) as [->|Hne].
      * rewrite decide_True by done. by repeat split.
      * rewrite decide_False by done. rewrite app_nil_r. by repeat split.
    + exists s. unfold emit. rewrite Hs1.
      rewrite decide_False by congruence. rewrite app_nil_r. by repeat split.
  - rewrite emitted_on_single; cbn [emitted]. unfold onLoading.
    destruct (heap w !! r1) as [s1|] eqn:Hs1.
    + rewrite (emit_heap w r1 s1 _ Hs1).
      eexists. split; [apply lookup_alter_iff; eauto|].
      destruct (decide (r = r1)) as [->|Hne].
      * rewrite decide_True by done. by repeat split.
      * rewrite decide_False by done. rewrite app_nil_r. by repeat split.
    + exists s. unfold emit. rewrite Hs1.
      rewrite decide_False by congruence. rewrite app_nil_r. by repeat split.
  - destruct (emitted_settle r1 o) as (event & Hev).
    rewrite emitted_on_single, Hev.
    destruct (heap w !! r1) as [s1|] eqn:Hs1.
    + rewrite (settle_heap w r1 s1 o event Hs1 Hev), list_alter_alter_eq.
      eexists. split; [apply lookup_alter_iff; eauto|].
      destruct (decide (r = r1)) as [->|Hne].
      * rewrite decide_True by done. by repeat split.
      * rewrite decide_False by done. rewrite app_nil_r. by repeat split.
    + assert (r1 ≠ r) as Hne by congruence.
      exists s. rewrite decide_False by done. rewrite app_nil_r.
      repeat split; try done.
      rewrite (settle_unfold w r1 o event Hev).
      destruct (cleanup_same r1 (with_heap (alter set_completed r1)
        (with_agents (delete r1) (emit r1 event w)))) as (-> & _).
      simpl. rewrite list_lookup_alter_ne by done.
      unfold emit. by rewrite Hs1.
Qed.

(** X1. The log of a session is append-only, and [emit] is the only way
    into it. Whatever handlers and callbacks run, in whatever order and
    from whatever state, also a callback that comes after the run has
    settled, a session object keeps its identifier, its log grows at the
    end by exactly the events the calls emit on it, so that the earlier
    log stays a prefix, and its completion flag does not go back. *)
Theorem log_only_grows w acts r s :
  heap w !! r = Some s →
  ∃ s',
    heap (after w acts) !! r = Some s' ∧
    id s' = id s ∧
    events s' = events s ++ emitted_on r acts ∧
    events s `prefix_of` events s' ∧
    (completed s = true → completed s' = true).
Proof.
  revert w s. induction acts as [|a acts IH]; intros w s Hs.
  { exists s. rewrite app_nil_r. by repeat split. }
  destruct (call_session w a r s Hs) as (s1 & Hs1 & Hid1 & Hev1 & Hc1).
  destruct (IH (step w a) s1 Hs1) as (s' & Hs' & Hid & Hev & _ & Hc).
  exists s'. split; [done|]. split; [congruence|].
  assert (events s' = events s ++ emitted_on r (a :: acts)) as Hall.
  { rewrite emitted_on_cons, app_assoc. congruence. }
  split; [done|]. split; [rewrite Hall; by apply prefix_app_r|].
  intros Hcs. by apply Hc, Hc1.
Qed.

Lemma log_only_grows_witness :
  let failed := step demo_running (Settle 0 (Some (ThrownError "disk full"))) in
  let log := [{| type := "item"; data := Some (DataText "x") |};
              {| type := "error"; data := Some (DataMessage "disk full") |}] in
  ∃ s',
    heap (after failed [OnItem 0 "late"]) !! 0 = Some s' ∧
    id s' = "a" ∧
    events s' = log ++ emitted_on 0 [OnItem 0 "late"] ∧
    log `prefix_of` events s' ∧
    (true = true → completed s' = true).
Proof.
  intros failed log.
  apply (log_only_grows failed [OnItem 0 "late"] 0
           {| id := "a"; events := log; listeners := []; completed := true |}).
  vm_compute. reflexivity.
Defined.

Lemma ends_well_kept w acts w' :
  Inv w → (∀ r s, heap w !! r = Some s → ends_well s) →
  run w acts = Some w' →
  ∀ r s, heap w' !! r = Some s → ends_well s.
Proof.
  revert w. induction acts as [|a acts IH]; intros w HI HP Hrun;
    simpl in Hrun; [by simplify_eq|].
  destruct (enabled w a) eqn:Hen; [|done].
  apply (IH (step w a) (Inv_step w a HI Hen)); [|done].
  intros r s' Hs'. unfold ends_well.
  destruct (completed s') eqn:Hc';
    [|by apply (inv_log _ (Inv_step w a HI Hen) r)].
  destruct (step_heap_back w a r s' HI Hen Hs') as [[s Hs]|[_ ?]];
    [|congruence].
  destruct (step_session w a r s HI Hen Hs)
    as (s'' & Hs'' & _ & Hev & Hdone & _).
  assert (s'' = s') as -> by congruence.
  destruct (completed s) eqn:Hc.
  { destruct (Hdone eq_refl) as [_ ->].
    specialize (HP r s Hs). unfold ends_well in HP. by rewrite Hc in HP. }
  assert (is_Some (agents w !! r)) as [p Hag]
    by (apply (inv_agents w HI); eauto).
  assert (agents (step w a) !! r = None) as Hgone.
  { destruct (agents (step w a) !! r) eqn:Ha; [|done].
    assert (is_Some (agents (step w a) !! r)) as Hsome by eauto.
    apply (inv_agents _ (Inv_step w a HI Hen)) in Hsome as (s1 & Hs1 & Hc1).
    congruence. }
  rewrite (step_agents w a HI Hen) in Hgone.
  destruct a as [body uuid|sid res|res|res|r1 text|r1 b|r1 o];
    try congruence.
  - destruct (String.eqb _ _); [congruence|].
    apply lookup_insert_None in Hgone as [Hgone _]. congruence.
  - destruct (decide (r1 = r)) as [->|Hne].
    + rewrite emitted_on_single in Hev.
      destruct (emitted_settle r o) as (event & Hemit).
      rewrite Hemit, decide_True in Hev by done.
      exists (events s), event. split; [done|].
      split; [by apply (inv_log w HI r)|].
      unfold terminal, of_type.
      destruct o as [[m|v]|]; simpl in Hemit; simplify_eq;
        [by right|by right|by left].
    + rewrite lookup_delete_ne in Hgone by done. congruence.
Qed.

(** X2. Provided the agent of a run calls back only while the run is in
    flight and not after it has settled, which is what [run] accepts, a
    session is completed exactly when its log ends with the one terminal
    event of its run: in every state so reached the log of a session
    that is not completed holds item and status events only, and the log
    of a completed session is such a log followed by a single complete
    or error event. A callback that came after the settle would add its
    event behind the terminal one: [emit] itself does not look at the
    flag. *)
Theorem terminal_event_is_last w r s :
  reachable w → heap w !! r = Some s → ends_well s.
Proof.
  intros [acts Hrun]. revert r s.
  apply (ends_well_kept init acts w Inv_init); [|done].
  intros r s Hs. simpl in Hs. by rewrite lookup_nil in Hs.
Qed.

Lemma terminal_event_is_last_witness :
  ends_well
    {| id := "a";
       events := [{| type := "item"; data := Some (DataText "x") |};
                  {| type := "complete"; data := None |}];
       listeners := [7]; completed := true |}.
Proof.
  apply (terminal_event_is_last
           (step (step demo_running (GetStream "a" 7)) (Settle 0 None)) 0).
  - exists [PostRun demo_body "a"; OnItem 0 "x"; GetStream "a" 7;
            Settle 0 None].
    vm_compute. reflexivity.
  - vm_compute. reflexivity.
Defined.

(** Without that proviso the log need not end well: an item reported
    after the error event of a failed run is appended behind it. *)
Lemma late_callback_follows_terminal_event :
  let failed := step demo_running (Settle 0 (Some (ThrownError "disk full"))) in
  ∃ s',
    heap (after failed [OnItem 0 "late"]) !! 0 = Some s' ∧
    events s' =
      [{| type := "item"; data := Some (DataText "x") |};
       {| type := "error"; data := Some (DataMessage "disk full") |};
       {| type := "item"; data := Some (DataText "late") |}] ∧
    ¬ ends_well s'.
Proof.
  eexists. split; [vm_compute; reflexivity|]. split; [done|].
  unfold ends_well. simpl. intros (body & last & Heq & _ & Hlast).
  change [{| type := "item"; data := Some (DataText "x") |};
          {| type := "error"; data := Some (DataMessage "disk full") |};
          {| type := "item"; data := Some (DataText "late") |}]
    with ([{| type := "item"; data := Some (DataText "x") |};
           {| type := "error"; data := Some (DataMessage "disk full") |}] ++
          [{| type := "item"; data := Some (DataText "late") |}]) in Heq.
  apply app_inj_tail in Heq as [_ <-].
  by destruct Hlast as [Hlast|Hlast].
Qed.

(** *** Streams *)

(** X3. The keep-alive timer and the close handler of a response are armed
    exactly while the response is a listener of the session they close
    over, so a closed stream leaves no timer behind; a response is in the
    listeners of a session at most once, and of one session only. *)
Theorem timer_armed_iff_listening w :
  reachable w →
  (∀ res r, streams w !! res = Some r ↔
            ∃ s, heap w !! r = Some s ∧ res ∈ listeners s) ∧
  (∀ r s, heap w !! r = Some s → NoDup (listeners s)) ∧
  (∀ res r1 r2 s1 s2,
     heap w !! r1 = Some s1 → heap w !! r2 = Some s2 →
     res ∈ listeners s1 → res ∈ listeners s2 → r1 = r2).
Proof.
  intros Hw. pose proof (Inv_reachable w Hw) as HI.
  split; [apply (inv_streams w HI)|]. split; [apply (inv_nodup w HI)|].
  intros res r1 r2 s1 s2 H1 H2 Hin1 Hin2.
  assert (streams w !! res = Some r1) by (apply (inv_streams w HI); eauto).
  assert (streams w !! res = Some r2) by (apply (inv_streams w HI); eauto).
  congruence.
Qed.

Lemma timer_armed_iff_listening_witness :
  let w := step demo_running (GetStream "a" 7) in
  (∀ res r, streams w !! res = Some r ↔
            ∃ s, heap w !! r = Some s ∧ res ∈ listeners s) ∧
  (∀ r s, heap w !! r = Some s → NoDup (listeners s)) ∧
  (∀ res r1 r2 s1 s2,
     heap w !! r1 = Some s1 → heap w !! r2 = Some s2 →
     res ∈ listeners s1 → res ∈ listeners s2 → r1 = r2).
Proof.
  intros w. apply (timer_armed_iff_listening w).
  exists [PostRun demo_body "a"; OnItem 0 "x"; GetStream "a" 7].
  vm_compute. reflexivity.
Defined.

(** X4. A client that disconnects takes nothing with it but its own place
    among the listeners: the close handler leaves every agent run in
    flight, writes to no response, disarms the timer of the stream, and
    leaves the identifier, the log, the completion flag and every other
    listener of every session as they are. *)
Theorem close_leaves_runs_alone w res :
  reachable w → is_Some (streams w !! res) →
  agents (on_close res w) = agents w ∧
  wire (on_close res w) = wire w ∧
  streams (on_close res w) !! res = None ∧
  ∀ r s, heap w !! r = Some s →
    ∃ s', heap (on_close res w) !! r = Some s' ∧
      id s' = id s ∧ events s' = events s ∧ completed s' = completed s ∧
      (res ∉ listeners s') ∧
      ∀ c, c ≠ res → (c ∈ listeners s' ↔ c ∈ listeners s).
Proof.
  intros Hw [r0 Hres]. pose proof (Inv_reachable w Hw) as HI.
  destruct (on_close_rest w res r0 Hres) as (Hwire & Hag & Hst).
  split; [done|]. split; [done|].
  split; [rewrite Hst; apply lookup_delete_eq|].
  intros r s Hs. rewrite (on_close_heap w res r0 Hres).
  exists (if decide (r = r0) then delete_listener res s else s).
  split; [apply lookup_alter_iff; eauto|].
  destruct (decide (r = r0)) as [->|Hne]; simpl.
  - repeat split; try done.
    + rewrite list_elem_of_filter. by intros [? _].
    + by intros [_ ?]%list_elem_of_filter.
    + intros Hin. by apply list_elem_of_filter.
  - repeat split; try done.
    intros Hin. apply Hne.
    assert (streams w !! res = Some r) by (apply (inv_streams w HI); eauto).
    congruence.
Qed.

Lemma close_leaves_runs_alone_witness :
  let w := step demo_running (GetStream "a" 7) in
  agents (on_close 7 w) = agents w ∧
  wire (on_close 7 w) = wire w ∧
  streams (on_close 7 w) !! 7 = None ∧
  ∀ r s, heap w !! r = Some s →
    ∃ s', heap (on_close 7 w) !! r = Some s' ∧
      id s' = id s ∧ events s' = events s ∧ completed s' = completed s ∧
      (7 ∉ listeners s') ∧
      ∀ c, c ≠ 7 → (c ∈ listeners s' ↔ c ∈ listeners s).
Proof.
  intros w. apply (close_leaves_runs_alone w 7).
  - exists [PostRun demo_body "a"; OnItem 0 "x"; GetStream "a" 7].
    vm_compute. reflexivity.
  - vm_compute. eauto.
Defined.

Lemma delete_added_listener res s :
  res ∉ listeners s → delete_listener res (add_listener res s) = s.
Proof.
  intros Hres. destruct s as [i e l c]. unfold delete_listener, add_listener.
  simpl in *. rewrite decide_False by done. f_equal.
  rewrite filter_app, filter_absent by done.
  rewrite filter_cons_False by (by intros ?). by rewrite filter_nil, app_nil_r.
Qed.

(** X5. An observer that comes and goes leaves nothing behind: attaching a
    new response to a registered session and then closing it gives back
    the heap, the registry, the agents and the armed streams as they
    were. Only what was written to the response remains. *)
Theorem attach_then_close_restores w sid res r :
  reachable w → wire w !! res = None → sessions w !! sid = Some r →
  let w' := on_close res (get_stream sid res w).1 in
  heap w' = heap w ∧ sessions w' = sessions w ∧
  agents w' = agents w ∧ streams w' = streams w.
Proof.
  intros Hw Hfresh Hsid w'. pose proof (Inv_reachable w Hw) as HI.
  destruct (proj1 (inv_registry w HI sid r) Hsid) as (s & Hs & Hid & Hi).
  set (w1 := (get_stream sid res w).1).
  pose proof (get_stream_heap w sid res r Hsid) as Hh1.
  destruct (get_stream_rest w sid res r Hsid) as (Hse1 & Ha1 & Hst1).
  fold w1 in Hh1, Hse1, Ha1, Hst1.
  assert (streams w !! res = None) as Hnone.
  { destruct (streams w !! res) eqn:Hk; [|done].
    assert (is_Some (wire w !! res)) as [? ?]
      by (apply (inv_open w HI); eauto).
    congruence. }
  assert (res ∉ listeners s) as Hnew.
  { intros Hin.
    assert (streams w !! res = Some r) by (apply (inv_streams w HI); eauto).
    congruence. }
  assert (streams w1 !! res = Some r) as Hres1
    by (rewrite Hst1; apply lookup_insert_eq).
  assert (heap w1 !! r = Some (add_listener res s)) as Hs1
    by (rewrite Hh1; by apply lookup_alter_here).
  destruct (on_close_rest w1 res r Hres1) as (_ & Ha2 & Hst2).
  pose proof (on_close_heap w1 res r Hres1) as Hh2.
  pose proof (on_close_sessions w1 res r _ Hres1 Hs1) as Hse2.
  unfold w'. fold w1. split; [|split; [|split]].
  - rewrite Hh2, Hh1, list_alter_alter_eq.
    apply (alter_fixed _ _ _ s Hs). simpl. by apply delete_added_listener.
  - rewrite Hse2, Hse1, delete_added_listener by done.
    by rewrite decide_False.
  - by rewrite Ha2.
  - rewrite Hst2, Hst1, delete_insert_eq. by apply delete_id.
Qed.

Lemma attach_then_close_restores_witness :
  let w' := on_close 7 (get_stream "a" 7 demo_running).1 in
  heap w' = heap demo_running ∧ sessions w' = sessions demo_running ∧
  agents w' = agents demo_running ∧ streams w' = streams demo_running.
Proof.
  apply (attach_then_close_restores demo_running "a" 7 0).
  - exists [PostRun demo_body "a"; OnItem 0 "x"]. vm_compute. reflexivity.
  - vm_compute. reflexivity.
  - vm_compute. reflexivity.
Defined.

(** *** Runs *)

(** X6. While the run of a session is in flight the session is not completed
    and is in the registry under its identifier, so a stream request for
    it is never answered 404. *)
Theorem running_session_is_attachable w r :
  reachable w → is_Some (agents w !! r) →
  ∃ s, heap w !! r = Some s ∧ completed s = false ∧
       sessions w !! id s = Some r ∧
       ∀ res, (get_stream (id s) res w).2 = EventStream.
Proof.
  intros Hw Hag. pose proof (Inv_reachable w Hw) as HI.
  destruct (proj1 (inv_agents w HI r) Hag) as (s & Hs & Hc).
  assert (sessions w !! id s = Some r) as Hk.
  { apply (inv_registry w HI). exists s. repeat split; [done|].
    intros [? _]. congruence. }
  exists s. repeat split; try done.
  intros res. by apply (get_stream_reply w (id s) res r).
Qed.

Lemma running_session_is_attachable_witness :
  ∃ s, heap demo_running !! 0 = Some s ∧ completed s = false ∧
       sessions demo_running !! id s = Some 0 ∧
       ∀ res, (get_stream (id s) res demo_running).2 = EventStream.
Proof.
  apply (running_session_is_attachable demo_running 0).
  - exists [PostRun demo_body "a"; OnItem 0 "x"]. vm_compute. reflexivity.
  - vm_compute. eauto.
Defined.

Lemma prompts_kept w acts w' :
  Inv w → (∀ r p, agents w !! r = Some p → p ≠ "") →
  run w acts = Some w' → ∀ r p, agents w' !! r = Some p → p ≠ "".
Proof.
  revert w. induction acts as [|a acts IH]; intros w HI HP Hrun;
    simpl in Hrun; [by simplify_eq|].
  destruct (enabled w a) eqn:Hen; [|done].
  apply (IH (step w a) (Inv_step w a HI Hen)); [|done].
  intros r p. rewrite (step_agents w a HI Hen).
  destruct a as [body uuid|sid res|res|res|r1 text|r1 b|r1 o];
    try apply HP.
  - destruct (String.eqb (prompt_text (get body "prompt")) "") eqn:Hp;
      [apply HP|].
    intros [[_ <-]|[_ ?]]%lookup_insert_Some; [|by eapply HP].
    by apply String.eqb_neq.
  - intros [_ ?]%lookup_delete_Some. by eapply HP.
Qed.

(** X7. No agent run is started without a prompt: in every reachable state
    the prompt of every run in flight is a non-empty string. *)
Theorem no_run_without_prompt w r prompt :
  reachable w → agents w !! r = Some prompt → prompt ≠ "".
Proof.
  intros [acts Hrun]. revert r prompt.
  apply (prompts_kept init acts w Inv_init); [|done].
  intros r p Hp. simpl in Hp. by rewrite lookup_empty in Hp.
Qed.

Lemma no_run_without_prompt_witness : "ls" ≠ "".
Proof.
  apply (no_run_without_prompt demo_running 0 "ls").
  - exists [PostRun demo_body "a"; OnItem 0 "x"]. vm_compute. reflexivity.
  - vm_compute. reflexivity.
Defined.

(** X8. A run that was just started can be attached to at once: a start
    request with a prompt is answered with the new identifier, the
    session is in the registry with an empty log, and a stream request
    for that identifier, before anything else happens, opens the stream
    with nothing to replay and makes the response the only listener. *)
Theorem start_then_attach w body uuid res :
  prompt_text (get body "prompt") ≠ "" →
  let w1 := (post_run body uuid w).1 in
  let w2 := (get_stream uuid res w1).1 in
  (post_run body uuid w).2 = Started uuid ∧
  sessions w1 !! uuid = Some (length (heap w)) ∧
  agents w1 !! length (heap w) = Some (prompt_text (get body "prompt")) ∧
  (get_stream uuid res w1).2 = EventStream ∧
  sent w2 res = [] ∧
  heap w2 !! length (heap w) =
    Some {| id := uuid; events := []; listeners := [res];
            completed := false |}.
Proof.
  intros Hp w1 w2.
  assert (post_run body uuid w =
          (runAgentForSession (length (heap w)) (prompt_text (get body "prompt"))
             (createSession uuid w).2, Started uuid)) as Hpost.
  { unfold post_run. apply String.eqb_neq in Hp. by rewrite Hp. }
  assert (sessions w1 !! uuid = Some (length (heap w))) as Hk.
  { unfold w1. rewrite Hpost. simpl. apply lookup_insert_eq. }
  assert (heap w1 !! length (heap w) =
          Some {| id := uuid; events := []; listeners := [];
                  completed := false |}) as Hs1.
  { unfold w1. rewrite Hpost. simpl. apply lookup_snoc_iff. by right. }
  split; [by rewrite Hpost|]. split; [done|]. split.
  { unfold w1. rewrite Hpost. simpl. apply lookup_insert_eq. }
  split; [by apply (get_stream_reply w1 uuid res _ Hk)|]. split.
  { unfold w2. rewrite (sent_get_stream w1 uuid res _ _ Hk Hs1).
    by rewrite decide_True. }
  unfold w2. rewrite (get_stream_heap w1 uuid res _ Hk).
  by rewrite (lookup_alter_here _ _ _ _ Hs1).
Qed.

Lemma start_then_attach_witness :
  let w1 := (post_run demo_body "b" demo_running).1 in
  let w2 := (get_stream "b" 7 w1).1 in
  (post_run demo_body "b" demo_running).2 = Started "b" ∧
  sessions w1 !! "b" = Some 1 ∧
  agents w1 !! 1 = Some "ls" ∧
  (get_stream "b" 7 w1).2 = EventStream ∧
  sent w2 7 = [] ∧
  heap w2 !! 1 =
    Some {| id := "b"; events := []; listeners := [7]; completed := false |}.
Proof.
  apply (start_then_attach demo_running demo_body "b" 7).
  vm_compute. discriminate.
Defined.

End WebMore.

(** ** More properties of the single-flight front end *)

Module SingleFlightMore.
Import JS SingleFlight Requests SingleFlightFacts.

(** *** One run at a time *)

(** X9. At most one run is outstanding: in every reachable state there is at
    most one invocation waiting for its run, it is the one [activeRun]
    stands for, and [activeRun] is [null] exactly when none is waiting. *)
Theorem at_most_one_outstanding sandbox w :
  reachable sandbox w →
  (∀ r1 r2, is_Some (pending w !! r1) → is_Some (pending w !! r2) → r1 = r2) ∧
  (∀ r, is_Some (pending w !! r) ↔ activeRun w = Some r) ∧
  (activeRun w = None ↔ pending w = ∅).
Proof.
  intros Hw. pose proof (tracks_reachable sandbox w Hw) as HI.
  split; [|split; [done|]].
  - intros r1 r2 H1%HI H2%HI. congruence.
  - split.
    + intros Hnone. apply map_empty. intros r.
      destruct (pending w !! r) eqn:Hr; [|done].
      assert (activeRun w = Some r) by (apply HI; eauto). congruence.
    + intros Hempty. destruct (activeRun w) as [r|] eqn:Hact; [|done].
      apply HI in Hact as [l Hl]. rewrite Hempty, lookup_empty in Hl. done.
Qed.

Lemma at_most_one_outstanding_witness :
  (∀ r1 r2, is_Some (pending demo_busy !! r1) →
            is_Some (pending demo_busy !! r2) → r1 = r2) ∧
  (∀ r, is_Some (pending demo_busy !! r) ↔ activeRun demo_busy = Some r) ∧
  (activeRun demo_busy = None ↔ pending demo_busy = ∅).
Proof.
  apply (at_most_one_outstanding JsNull demo_busy).
  exists [Post 0 demo_request 100; OnItem 0 (JsString "x"); OnLoading 0 true].
  vm_compute. reflexivity.
Defined.

Lemma invocations_kept w acts w' :
  (∀ i, i ∈ invocations w → i.1.2 ≠ "") →
  run w acts = Some w' → ∀ i, i ∈ invocations w' → i.1.2 ≠ "".
Proof.
  revert w. induction acts as [|a acts IH]; intros w HP Hrun;
    simpl in Hrun; [by simplify_eq|].
  destruct (enabled w a); [|done].
  apply (IH (step w a).1); [|done].
  destruct a as [req body now|req item|req payload|req rid|req outcome now];
    cbn [step fst]; try done.
  - unfold post_run. destruct (activeRun w); [done|].
    destruct (String.eqb (prompt_text (get body "prompt")) "") eqn:Hp; [done|].
    simpl. intros i [?|Hi%list_elem_of_singleton]%elem_of_app; [by apply HP|].
    subst i. by apply String.eqb_neq.
  - unfold settle. by destruct (pending w !! req).
Qed.

(** X10. No agent run is created without a prompt: every run the server has
    created was given a non-empty prompt. *)
Theorem no_invocation_without_prompt sandbox w req prompt images :
  reachable sandbox w → (req, prompt, images) ∈ invocations w → prompt ≠ "".
Proof.
  intros [acts Hrun] Hin.
  apply (invocations_kept (init sandbox) acts w) in Hin; [done| |done].
  intros i Hi. simpl in Hi. by apply elem_of_nil in Hi.
Qed.

Lemma no_invocation_without_prompt_witness : "build project" ≠ "".
Proof.
  apply (no_invocation_without_prompt JsNull demo_busy 0 "build project" []).
  - exists [Post 0 demo_request 100; OnItem 0 (JsString "x");
            OnLoading 0 true].
    vm_compute. reflexivity.
  - vm_compute. apply elem_of_cons. by left.
Defined.

(** *** What the reply says about its own run *)

Lemma invoked_step w a req :
  req ∈ invoked w → req ∈ invoked (step w a).1.
Proof.
  intros Hin.
  destruct a as [r body now|r item|r payload|r rid|r outcome now];
    cbn [step fst]; try done.
  - unfold post_run. destruct (activeRun w); [done|].
    destruct (String.eqb _ _); [done|]. unfold invoked in *. simpl.
    rewrite fmap_app. apply elem_of_app. by left.
  - unfold settle. by destruct (pending w !! r).
Qed.

(** An invocation whose agent was created makes no further start
    request. *)
Lemma no_post_after w acts w' req :
  run w acts = Some w' → req ∈ invoked w → posts_of req acts = [].
Proof.
  revert w. induction acts as [|a acts IH]; intros w Hrun Hin;
    simpl in Hrun; [done|].
  destruct (enabled w a) eqn:Hen; [|done].
  pose proof (IH _ Hrun (invoked_step w a req Hin)) as Hrest.
  unfold posts_of in *. simpl.
  destruct a as [r body now|r item|r payload|r rid|r outcome now]; try done.
  apply enabled_ready in Hen as [_ Hen]. simpl in Hen.
  apply bool_decide_eq_true in Hen.
  rewrite decide_False; [done|]. intros ->. done.
Qed.

Lemma sandbox_kept w acts w' :
  run w acts = Some w' → sandboxStatus w' = sandboxStatus w.
Proof.
  revert w. induction acts as [|a acts IH]; intros w Hrun; simpl in Hrun;
    [by simplify_eq|].
  destruct (enabled w a); [|done]. rewrite (IH _ Hrun).
  destruct a as [r body now|r item|r payload|r rid|r outcome now];
    cbn [step fst]; try done.
  - unfold post_run. destruct (activeRun w); [done|].
    by destruct (String.eqb _ _).
  - unfold settle. by destruct (pending w !! r).
Qed.

Lemma ids_of_cons req a acts :
  ids_of req (a :: acts) = ids_of req [a] ++ ids_of req acts.
Proof.
  unfold ids_of. simpl.
  destruct a as [| | | r rid |]; try done. by destruct (decide (r = req)).
Qed.

Lemma posts_of_cons req a acts :
  posts_of req (a :: acts) = posts_of req [a] ++ posts_of req acts.
Proof.
  unfold posts_of. simpl.
  destruct a as [r body now| | | |]; try done. by destruct (decide (r = req)).
Qed.

(** While an invocation waits, its last response id follows what its own
    agent reports, and its start time and its flag stay. *)
Lemma locals_grow w acts w' req l0 l :
  run w acts = Some w' → pending w !! req = Some l0 → req ∈ invoked w →
  pending w' !! req = Some l →
  lastResponseId l =
    from_option JsString (lastResponseId l0) (last (ids_of req acts)) ∧
  startedAt l = startedAt l0 ∧ fullStdout l = fullStdout l0.
Proof.
  revert w l0. induction acts as [|a acts IH]; intros w l0 Hrun Hl0 Hadm Hl;
    simpl in Hrun.
  { by simplify_eq. }
  destruct (enabled w a) eqn:Hen; [|done].
  rewrite ids_of_cons.
  destruct a as [r body now|r item|r payload|r rid|r outcome now];
    apply enabled_ready in Hen as [Hlive Hen]; simpl in Hen;
    apply bool_decide_eq_true in Hen; cbn [step fst] in Hrun.
  - unfold post_run in Hrun.
    destruct (activeRun w); [by eapply (IH _ l0)|].
    destruct (String.eqb _ _); [by eapply (IH _ l0)|].
    eapply (IH _ l0); [done| | |done].
    + simpl. rewrite lookup_insert_ne; [done|]. by intros ->.
    + unfold invoked in *. simpl. rewrite fmap_app. apply elem_of_app. by left.
  - simpl. destruct (decide (r = req)) as [->|Hne].
    + eapply (IH _ {| results := results l0 ++ [item];
                      loadingStates := loadingStates l0;
                      lastResponseId := lastResponseId l0;
                      startedAt := startedAt l0;
                      fullStdout := fullStdout l0 |} Hrun); [|done|done].
      simpl. by rewrite lookup_alter_eq, Hl0.
    + eapply (IH _ l0 Hrun); [|done|done].
      simpl. by rewrite lookup_alter_ne.
  - simpl. destruct (decide (r = req)) as [->|Hne].
    + eapply (IH _ {| results := results l0;
                      loadingStates := loadingStates l0 ++ [loading_state payload];
                      lastResponseId := lastResponseId l0;
                      startedAt := startedAt l0;
                      fullStdout := fullStdout l0 |} Hrun); [|done|done].
      simpl. by rewrite lookup_alter_eq, Hl0.
    + eapply (IH _ l0 Hrun); [|done|done].
      simpl. by rewrite lookup_alter_ne.
  - unfold ids_of at 1. simpl.
    destruct (decide (r = req)) as [->|Hne].
    + destruct (IH _ {| results := results l0;
                        loadingStates := loadingStates l0;
                        lastResponseId := JsString rid;
                        startedAt := startedAt l0;
                        fullStdout := fullStdout l0 |} Hrun) as (Hid & ? & ?);
        [simpl; by rewrite lookup_alter_eq, Hl0|done|done|].
      split; [|done]. rewrite Hid. simpl.
      by destruct (ids_of req acts) as [|rid' ids] using rev_ind;
        [|rewrite app_comm_cons, !last_snoc].
    + eapply (IH _ l0 Hrun); [|done|done].
      simpl. by rewrite lookup_alter_ne.
  - simpl. unfold settle in Hrun.
    destruct (pending w !! r) as [lr|] eqn:Hr; [|by eapply (IH _ l0)].
    simpl in Hrun. destruct (decide (r = req)) as [->|Hne].
    + assert (pending w' !! req = None); [|congruence].
      eapply settled_stays_settled; [done| |done]. simpl.
      apply lookup_delete_eq.
    + eapply (IH _ l0 Hrun); [|done|done].
      simpl. by rewrite lookup_delete_ne.
Qed.

Lemma locals_from_admission w acts w' req l :
  run w acts = Some w' → pending w !! req = None → req ∉ invoked w →
  pending w' !! req = Some l →
  lastResponseId l =
    from_option JsString JsUndefined (last (ids_of req acts)) ∧
  ∃ request posted,
    last (posts_of req acts) = Some (request, posted) ∧
    startedAt l = posted ∧ fullStdout l = get request "fullStdout".
Proof.
  revert w. induction acts as [|a acts IH]; intros w Hrun Hnone Hnew Hl;
    simpl in Hrun; [by simplify_eq|].
  destruct (enabled w a) eqn:Hen; [|done].
  rewrite ids_of_cons, posts_of_cons.
  assert (∀ r, is_Some (pending w !! r) → r ≠ req) as Hother.
  { intros r [? Hr] ->. congruence. }
  assert (∀ (x : JsVal * Z) xs y, last xs = Some y → last (x :: xs) = Some y)
    as Hlast.
  { intros x xs y. destruct xs as [|x' xs]; [done|]. by simpl. }
  destruct a as [r body now|r item|r payload|r rid|r outcome now];
    apply enabled_ready in Hen as [Hlive Hen]; simpl in Hen;
    apply bool_decide_eq_true in Hen; cbn [step fst] in Hrun.
  - unfold ids_of at 1, posts_of at 1. simpl.
    unfold post_run in Hrun.
    destruct (activeRun w).
    { destruct (IH _ Hrun Hnone Hnew Hl) as (? & request & posted & ? & ? & ?).
      split; [done|]. exists request, posted.
      destruct (decide (r = req)); simpl; eauto. }
    destruct (String.eqb _ _).
    { destruct (IH _ Hrun Hnone Hnew Hl) as (? & request & posted & ? & ? & ?).
      split; [done|]. exists request, posted.
      destruct (decide (r = req)); simpl; eauto. }
    destruct (decide (r = req)) as [->|Hne].
    + simpl in Hrun.
      assert (req ∈ invoked
                {| activeRun := Some req;
                   pending := <[req := {| results := []; loadingStates := [];
                                          lastResponseId := JsUndefined;
                                          startedAt := now;
                                          fullStdout := get body "fullStdout" |}]>
                                (pending w);
                   invocations := invocations w ++
                     [(req, prompt_text (get body "prompt"),
                       string_elems (get body "images"))];
                   sandboxStatus := sandboxStatus w;
                   unhandled := unhandled w |}) as Hin.
      { unfold invoked. simpl. rewrite fmap_app. apply elem_of_app. right.
        by apply list_elem_of_singleton. }
      destruct (locals_grow _ acts w' req
                  {| results := []; loadingStates := [];
                     lastResponseId := JsUndefined; startedAt := now;
                     fullStdout := get body "fullStdout" |} l Hrun)
        as (Hid & Hat & Hfull); [simpl; apply lookup_insert_eq|done|done|].
      split; [done|]. exists body, now.
      by rewrite (no_post_after _ acts w' req Hrun Hin).
    + simpl. eapply (IH _ Hrun); [| |done].
      * simpl. by rewrite lookup_insert_ne.
      * unfold invoked in *. simpl. rewrite fmap_app.
        intros [?|Hin%list_elem_of_singleton]%elem_of_app; [done|].
        simpl in Hin. congruence.
  - unfold ids_of at 1, posts_of at 1. simpl.
    eapply (IH _ Hrun); [|done|done]. simpl.
    rewrite lookup_alter_ne; [done|by apply Hother].
  - unfold ids_of at 1, posts_of at 1. simpl.
    eapply (IH _ Hrun); [|done|done]. simpl.
    rewrite lookup_alter_ne; [done|by apply Hother].
  - unfold ids_of at 1, posts_of at 1. simpl.
    rewrite decide_False by (by apply Hother). simpl.
    eapply (IH _ Hrun); [|done|done]. simpl.
    rewrite lookup_alter_ne; [done|by apply Hother].
  - unfold ids_of at 1, posts_of at 1. simpl.
    unfold settle in Hrun. destruct (pending w !! r) eqn:Hr; [|by eapply IH].
    eapply (IH _ Hrun); [|done|done]. simpl.
    by apply lookup_delete_None; right.
Qed.

(** X11. The reply of an invocation speaks of its own run. Its duration is the
    clock when the run settled minus the clock when the request that
    started it arrived, that request being the last one made under the
    invocation; its sandbox status is the one computed at startup; and on
    success its last response id is the latest one its own agent
    reported, undefined when it reported none, and its [fullStdout] flag
    is the truthiness of that field of its own request. *)
Theorem reply_reports_own_run sandbox acts w req l outcome now :
  run (init sandbox) acts = Some w → pending w !! req = Some l →
  ∃ request posted reply,
    last (posts_of req acts) = Some (request, posted) ∧
    (settle req outcome now w).2 = Some reply ∧
    assoc "durationMs" (body reply) = JsNumber (now - posted) ∧
    assoc "sandbox" (body reply) = sandbox ∧
    (outcome = None →
     assoc "lastResponseId" (body reply) =
       from_option JsString JsUndefined (last (ids_of req acts)) ∧
     assoc "fullStdout" (body reply) =
       JsBool (truthy (get request "fullStdout"))).
Proof.
  intros Hrun Hl.
  destruct (locals_from_admission (init sandbox) acts w req l Hrun)
    as (Hid & request & posted & Hlast & Hat & Hfull);
    [done|apply not_elem_of_nil|done|].
  pose proof (sandbox_kept _ _ _ Hrun) as Hsb. simpl in Hsb.
  exists request, posted. unfold settle. rewrite Hl. eexists.
  split; [done|]. split; [done|].
  destruct outcome as [error|]; simpl; rewrite Hat, Hsb.
  - by repeat split.
  - split; [done|]. split; [done|]. intros _. by rewrite Hid, Hfull.
Qed.

Lemma reply_reports_own_run_witness :
  let request :=
    JsObject [("prompt", JsString "go"); ("fullStdout", JsNumber 1)] in
  let acts := [Post 0 (JsObject []) 50; Post 0 request 100;
               OnLastResponseId 0 "r1"; OnLastResponseId 0 "r2"] in
  let w := default (init JsNull) (run (init JsNull) acts) in
  ∃ request' posted reply,
    last (posts_of 0 acts) = Some (request', posted) ∧
    (settle 0 None 160 w).2 = Some reply ∧
    assoc "durationMs" (body reply) = JsNumber (160 - posted) ∧
    assoc "sandbox" (body reply) = JsNull ∧
    (@None Thrown = None →
     assoc "lastResponseId" (body reply) =
       from_option JsString JsUndefined (last (ids_of 0 acts)) ∧
     assoc "fullStdout" (body reply) =
       JsBool (truthy (get request' "fullStdout"))).
Proof.
  intros request acts w.
  apply (reply_reports_own_run JsNull acts w 0
           {| results := []; loadingStates := [];
              lastResponseId := JsString "r2"; startedAt := 100;
              fullStdout := JsNumber 1 |} None 160).
  - vm_compute. reflexivity.
  - vm_compute. reflexivity.
Defined.

End SingleFlightMore.

(** ** Properties of the page of the single-flight front end *)

Module PageFacts.
Import JS Page.

(** *** Strings *)

Lemma append_cons c (a b : string) : String c a +:+ b = String c (a +:+ b).
Proof. reflexivity. Qed.

Lemma append_nil_r (s : string) : s +:+ "" = s.
Proof. induction s as [|c s IH]; [done|]. by rewrite append_cons, IH. Qed.

Lemma append_assoc (a b c : string) : (a +:+ b) +:+ c = a +:+ (b +:+ c).
Proof. induction a as [|x a IH]; [done|]. by rewrite !append_cons, IH. Qed.

Lemma chars_app (a b : string) : chars (a +:+ b) = chars a ++ chars b.
Proof.
  induction a as [|x a IH]; [done|]. unfold chars in *.
  rewrite append_cons. cbn [list_ascii_of_string app]. by rewrite IH.
Qed.

Lemma replace_all_app c by_ a b :
  replace_all c by_ (a +:+ b) = replace_all c by_ a +:+ replace_all c by_ b.
Proof.
  induction a as [|x a IH]; [done|].
  rewrite append_cons. cbn [replace_all]. by rewrite IH, append_assoc.
Qed.

(** *** [escapeHtml] *)

Lemma escapeHtml_char c : escapeHtml (String c "") = entity c.
Proof. by destruct c as [[] [] [] [] [] [] [] []]. Qed.

Lemma escapeHtml_app a b : escapeHtml (a +:+ b) = escapeHtml a +:+ escapeHtml b.
Proof. unfold escapeHtml. by rewrite !replace_all_app. Qed.

(** X12. The five replacements of [escapeHtml], done one after the other over
    the whole text, come to one pass that turns each ampersand, angle
    bracket, double quote and apostrophe into its entity and leaves every
    other character: no replacement touches what an earlier one put in. *)
Theorem escapeHtml_is_one_pass s : escapeHtml s = escape_chars s.
Proof.
  induction s as [|c s IH]; [done|].
  change (String c s) with (String c "" +:+ s).
  rewrite escapeHtml_app, escapeHtml_char, IH. done.
Qed.

Lemma entity_has_no_markup c :
  Forall (λ x, x ≠ lt ∧ x ≠ gt ∧ x ≠ quot ∧ x ≠ apos) (chars (entity c)).
Proof.
  destruct c as [[] [] [] [] [] [] [] []];
    by apply (bool_decide_unpack _).
Qed.

(** X13. An escaped text holds no angle bracket, no double quote and no
    apostrophe, whatever the text was. *)
Theorem escapeHtml_has_no_markup s :
  Forall (λ x, x ≠ lt ∧ x ≠ gt ∧ x ≠ quot ∧ x ≠ apos) (chars (escapeHtml s)).
Proof.
  rewrite escapeHtml_is_one_pass.
  induction s as [|c s IH]; [by apply Forall_nil|].
  simpl. rewrite chars_app. apply Forall_app. split; [|done].
  apply entity_has_no_markup.
Qed.

Lemma unescape_entity c rest :
  unescape (entity c +:+ rest) = String c (unescape rest).
Proof. by destruct c as [[] [] [] [] [] [] [] []]. Qed.

(** X14. Escaping loses nothing: reading the five entities back gives the
    text again, so two texts that escape to the same string are the same
    text. *)
Theorem escapeHtml_round_trip s :
  unescape (escapeHtml s) = s ∧
  ∀ s', escapeHtml s = escapeHtml s' → s = s'.
Proof.
  assert (∀ t, unescape (escapeHtml t) = t) as Hback.
  { intros t. rewrite escapeHtml_is_one_pass.
    induction t as [|c t IH]; [done|].
    simpl. by rewrite unescape_entity, IH. }
  split; [done|]. intros s' Heq.
  by rewrite <- (Hback s), Heq, Hback.
Qed.

Lemma escapeHtml_round_trip_witness :
  unescape (escapeHtml "a<b") = "a<b" ∧ "a<b" = "a<b".
Proof.
  destruct (escapeHtml_round_trip "a<b") as [Hback Hinj].
  split; [exact Hback|]. apply Hinj. reflexivity.
Defined.

(** *** The context in the page *)

Lemma replace_all_removes c by_ s :
  Forall (λ x, x ≠ c) (chars by_) →
  Forall (λ x, x ≠ c) (chars (replace_all c by_ s)).
Proof.
  intros Hby. induction s as [|a s IH]; [by apply Forall_nil|].
  simpl. rewrite chars_app. apply Forall_app. split; [|done].
  destruct (Ascii.eqb a c) eqn:Ha; [done|].
  apply Forall_singleton. by apply Ascii.eqb_neq.
Qed.

(** X15. The context written into the script of the page holds no [<],
    whatever the working directory, the model, the provider, the version
    and the sandbox message are: no field can close the script element
    or open a tag. *)
Theorem serializedContext_has_no_lt context :
  Forall (λ x, x ≠ lt) (chars (serializedContext context)).
Proof.
  apply replace_all_removes.
  by apply (bool_decide_unpack _).
Qed.

End PageFacts.

(** ** Properties of the output of a command *)

Module CommandStatusFacts.
Import JS CommandStatus.

(** *** Splitting and joining lines *)

Lemma split_not_nil s : split s ≠ [].
Proof.
  destruct s as [|c s]; [done|]. simpl.
  destruct (Ascii.eqb c newline); [done|]. by destruct (split s).
Qed.

Lemma split_cons c s :
  split (String c s) =
  if Ascii.eqb c newline then "" :: split s
  else match split s with
       | line :: lines => String c line :: lines
       | [] => [String c ""]
       end.
Proof. reflexivity. Qed.

Lemma join_cons line rest :
  rest ≠ [] → join (line :: rest) = line +:+ String newline (join rest).
Proof. by destruct rest. Qed.

Lemma join_split s : join (split s) = s.
Proof.
  induction s as [|c s IH]; [done|]. rewrite split_cons.
  destruct (Ascii.eqb c newline) eqn:Hc.
  - apply Ascii.eqb_eq in Hc as ->.
    rewrite join_cons by apply split_not_nil. by rewrite IH.
  - pose proof (split_not_nil s) as Hne.
    destruct (split s) as [|line lines]; [done|].
    destruct lines as [|line' lines].
    + simpl in *. by rewrite IH.
    + rewrite join_cons by done. rewrite join_cons in IH by done.
      by rewrite <- IH.
Qed.

Lemma split_one_line s : Forall one_line (split s).
Proof.
  induction s as [|c s IH]; [by repeat constructor|]. rewrite split_cons.
  destruct (Ascii.eqb c newline) eqn:Hc.
  - apply Forall_cons. split; [by constructor|done].
  - pose proof (split_not_nil s) as Hne.
    destruct (split s) as [|line lines]; [done|].
    apply Forall_cons in IH as [Hline Hlines].
    apply Forall_cons. split; [|done].
    apply Forall_cons. split; [by apply Ascii.eqb_neq|done].
Qed.

Lemma split_line_then s rest :
  one_line s → split (s +:+ String newline rest) = s :: split rest.
Proof.
  induction s as [|c s IH]; intros Hs; [done|].
  apply Forall_cons in Hs as [Hc Hs].
  change (String c s +:+ String newline rest)
    with (String c (s +:+ String newline rest)).
  rewrite split_cons, (IH Hs).
  apply Ascii.eqb_neq in Hc. by rewrite Hc.
Qed.

Lemma split_line s : one_line s → split s = [s].
Proof.
  induction s as [|c s IH]; intros Hs; [done|].
  apply Forall_cons in Hs as [Hc Hs].
  rewrite split_cons, (IH Hs). apply Ascii.eqb_neq in Hc. by rewrite Hc.
Qed.

Lemma split_join lines :
  lines ≠ [] → Forall one_line lines → split (join lines) = lines.
Proof.
  induction lines as [|line rest IH]; [done|]. intros _ Hall.
  apply Forall_cons in Hall as [Hline Hrest].
  destruct rest as [|line' rest]; [by apply split_line|].
  rewrite join_cons by done. rewrite split_line_then by done.
  by rewrite IH.
Qed.

Lemma uint_one_line d :
  Forall (λ c, c ≠ newline) (list_ascii_of_string (NilEmpty.string_of_uint d)).
Proof.
  induction d; simpl; [by constructor|..];
    (apply Forall_cons; split; [by intros ?|done]).
Qed.

Lemma decimal_one_line n : one_line (decimal n).
Proof.
  unfold one_line, decimal, NilZero.string_of_uint.
  destruct (Nat.to_uint n) eqn:Hn; try (rewrite <- Hn; apply uint_one_line).
  by repeat constructor.
Qed.

Lemma list_ascii_app (a b : string) :
  list_ascii_of_string (a +:+ b) =
  list_ascii_of_string a ++ list_ascii_of_string b.
Proof.
  induction a as [|x a IH]; [done|].
  change (String x a +:+ b) with (String x (a +:+ b)). simpl. by rewrite IH.
Qed.

Lemma more_lines_one_line n : one_line (more_lines n).
Proof.
  unfold one_line, more_lines. rewrite !list_ascii_app.
  apply Forall_app. split; [by apply (bool_decide_unpack _)|].
  apply Forall_app. split; [apply decimal_one_line|].
  by apply (bool_decide_unpack _).
Qed.

(** *** [truncateOutput] *)

(** X16. The lines of a truncated output. With [fullStdout] set, or with at
    most four lines, the text comes back as it is. Otherwise the result
    has exactly five lines: the first four lines of the text, and one
    line that gives the number of lines left out, which is at least
    one. *)
Theorem truncateOutput_lines text fullStdout :
  let lines := split text in
  if default false fullStdout || (length lines <=? 4)%nat
  then truncateOutput text fullStdout = text
  else
    split (truncateOutput text fullStdout) =
      take 4 lines ++ [more_lines (length lines - 4)] ∧
    length (split (truncateOutput text fullStdout)) = 5 ∧
    (1 ≤ length lines - 4)%nat.
Proof.
  intros lines. pose proof (split_one_line text) as Hone. fold lines in Hone.
  unfold truncateOutput. fold lines. clearbody lines.
  destruct (default false fullStdout); [done|]. simpl.
  destruct (length lines <=? 4)%nat eqn:Hlen; [done|].
  apply Nat.leb_gt in Hlen.
  assert (split (join (take 4 lines ++ [more_lines (length lines - 4)])) =
          take 4 lines ++ [more_lines (length lines - 4)]) as Hsplit.
  { apply split_join; [by destruct (take 4 lines)|].
    apply Forall_app. split.
    - by apply Forall_take.
    - apply Forall_singleton, more_lines_one_line. }
  rewrite Hsplit. split; [done|]. split; [|lia].
  rewrite length_app, length_take. cbn [length]. lia.
Qed.

(** X17. Truncating is not idempotent: an output of more than four lines,
    truncated and then truncated again, keeps its first four lines but
    its last line now says that one line was left out, whatever the
    number was. *)
Theorem truncateOutput_twice text :
  (4 < length (split text))%nat →
  truncateOutput (truncateOutput text None) None =
  join (take 4 (split text) ++ [more_lines 1]).
Proof.
  intros Hlen.
  pose proof (truncateOutput_lines text None) as H1. simpl in H1.
  destruct (length (split text) <=? 4)%nat eqn:Hle;
    [apply Nat.leb_le in Hle; lia|].
  destruct H1 as (Hsplit & Hfive & _).
  unfold truncateOutput at 1. simpl. rewrite Hfive. simpl.
  rewrite Hsplit. rewrite take_app_le by (rewrite length_take; lia).
  rewrite take_take. done.
Qed.

Lemma truncateOutput_twice_witness :
  let text := "a" +:+ nl +:+ "b" +:+ nl +:+ "c" +:+ nl +:+ "d" +:+ nl +:+
              "e" +:+ nl +:+ "f" in
  truncateOutput (truncateOutput text None) None =
  join (take 4 (split text) ++ [more_lines 1]).
Proof.
  intros text. apply (truncateOutput_twice text). vm_compute. lia.
Defined.

End CommandStatusFacts.
